(** * The translation engine of i18n.go

    A shallow embedding of [src/i18n.go]: the [I18n] engine that loads
    translations from an ordered chain of backends into a cache store,
    resolves a (locale, key) pair through a chain of fallback locales,
    creates a placeholder record for a missing translation, and keeps cache
    and backends in step on save and delete.

    The cache store ([cache.CacheStoreInterface]), the backends ([Backend]) and
    the formatter ([cldr.Parse]) are interfaces the engine consumes: they are
    type classes here, the engine is written once over any instances.  Every
    call the engine makes on a cache store or a backend is recorded in a
    journal of [Event]s, so that the order of the calls can be stated.

    The file also embeds [LoadTranslations], [RenderInlineEditAssets] over
    the file system the process sees, and [getLocaleFromContext]. *)

From Stdlib Require Import Ascii.
From stdpp Require Import base option list strings gmap fin_maps.

Set Default Proof Using "Type".
Local Open Scope string_scope.
Local Open Scope list_scope.
Local Open Scope nat_scope.

(** ** Go's [error], [strings.Join] and [errors.New] *)

(** An [error] is [nil] or carries a message. *)
Definition error : Type := option string.
Definition nil : error := None.
Definition errors_New (text : string) : error := Some text.

Definition is_nil (err : error) : bool :=
  match err with None => true | Some _ => false end.

(** [strings.Join(elems, sep)] *)
Definition strings_Join (elems : list string) (sep : string) : string :=
  String.concat sep elems.

(** [template.HTML] is a string type. *)
Definition HTML : Type := string.

(** ** Translation records *)

(** The [Backend] field of a record holds a backend by reference; the
    reference is the position of the backend in the engine's chain, [None] is
    the nil interface. *)
Record Translation : Type := mkTranslation {
  Key : string;
  Locale : string;
  Value : string;
  Backend : option nat
}.

(** The zero value [var translation Translation]. *)
Definition zero_Translation : Translation :=
  {| Key := ""; Locale := ""; Value := ""; Backend := None |}.

(** What a cache store keeps of a record: the JSON document of its exported
    fields.  [Backend] carries the tag json:"-" and is left out. *)
Record Document : Type := mkDocument {
  doc_Key : string;
  doc_Locale : string;
  doc_Value : string
}.

Definition Marshal (t : Translation) : Document :=
  {| doc_Key := Key t; doc_Locale := Locale t; doc_Value := Value t |}.

(** Decoding a document into a record slot overwrites the three exported
    fields and leaves [Backend] as the slot had it. *)
Definition decode_into (d : Document) (out : Translation) : Translation :=
  {| Key := doc_Key d; Locale := doc_Locale d; Value := doc_Value d;
     Backend := Backend out |}.

#[global] Instance Translation_eq_dec : EqDecision Translation.
Proof. solve_decision. Defined.

#[global] Instance Document_eq_dec : EqDecision Document.
Proof. solve_decision. Defined.

(** ** The interfaces the engine consumes *)

Module cache.

(** The outcome of [Unmarshal(key, &out)]: the stored document was decoded
    into the slot, or an error (not found among them) was returned and the
    slot was left alone. *)
Inductive Found : Type :=
| Hit (d : Document)
| Miss (err : string).

(** [cache.CacheStoreInterface], for the calls the engine makes.  A store is
    a value of type [C]; [Set_] and [Delete] return the store they leave. *)
Class CacheStoreInterface (C : Type) : Type := {
  Unmarshal : C → string → Found;
  Set_ : C → string → Translation → C * error;
  Delete : C → string → C * error
}.

End cache.

Module backend.

(** The [Backend] interface.  A backend is a value of type [B]; saving and
    deleting return the backend they leave, and an error. *)
Class Interface (B : Type) : Type := {
  LoadTranslations : B → list Translation;
  SaveTranslation : B → Translation → B * error;
  DeleteTranslation : B → Translation → B * error
}.

End backend.

Module cldr.

(** [cldr.Parse(locale, value, args...)], over arguments of type [Arg]. *)
Class Formatter (Arg : Type) : Type :=
  Parse : string → string → list Arg → string * error.

End cldr.

(** ** The calls on the collaborators, as journal entries *)

Inductive Event : Type :=
| CacheUnmarshal (key : string)
| CacheSet (key : string) (t : Translation)
| CacheDelete (key : string)
| BackendLoad (i : nat)
| BackendSave (i : nat) (t : Translation)
| BackendDelete (i : nat) (t : Translation).

(** The string has no "/" in it. *)
Fixpoint slash_free (s : string) : bool :=
  match s with
  | EmptyString => true
  | String c rest => negb (Ascii.eqb c "/"%char) && slash_free rest
  end.

(** [var Default = "en-US"]: a package variable, which the source sets to
    "en-US" and a program may assign.  The functions below read it; they are
    written over the value it holds, [Default]. *)
Class Package : Type := Default : string.

(** [cacheKey(strs...)] *)
Definition cacheKey (strs : list string) : string := strings_Join strs "/".

(** ** The engine *)

Section Engine.

Context {C B Arg : Type}.
Context {package : Package}
        {store_impl : cache.CacheStoreInterface C}
        {backend_impl : backend.Interface B}
        {formatter : cldr.Formatter Arg}.

(** [type I18n struct] *)
Record I18n : Type := mkI18n {
  scope : string;
  value : string;
  Backends : list B;
  FallbackLocales : gmap string (list string);
  fallbackLocales : list string;
  cacheStore : C
}.

Definition with_Backends (i18n : I18n) (bs : list B) : I18n :=
  {| scope := scope i18n; value := value i18n; Backends := bs;
     FallbackLocales := FallbackLocales i18n;
     fallbackLocales := fallbackLocales i18n; cacheStore := cacheStore i18n |}.

Definition with_cacheStore (i18n : I18n) (c : C) : I18n :=
  {| scope := scope i18n; value := value i18n; Backends := Backends i18n;
     FallbackLocales := FallbackLocales i18n;
     fallbackLocales := fallbackLocales i18n; cacheStore := c |}.

(** *** Methods as state transformers that journal their calls

    A method of [*I18n] takes the engine as it is and returns its result,
    the engine as it leaves it and the calls it made on the cache store and
    the backends, in order. *)
Definition M (A : Type) : Type := I18n → A * I18n * list Event.

Definition ret {A} (a : A) : M A := λ i18n, (a, i18n, []).

Definition bind {A A'} (m : M A) (k : A → M A') : M A' :=
  λ i18n,
    let '(a, i18n1, calls1) := m i18n in
    let '(a', i18n2, calls2) := k a i18n1 in
    (a', i18n2, calls1 ++ calls2).

Definition self : M I18n := λ i18n, (i18n, i18n, []).

Definition result {A} (out : A * I18n * list Event) : A := out.1.1.
Definition after {A} (out : A * I18n * list Event) : I18n := out.1.2.
Definition calls {A} (out : A * I18n * list Event) : list Event := out.2.

Notation "x <- m ;; k" := (bind m (λ x, k))
  (at level 100, m at next level, k at level 200, right associativity,
   only parsing).
Notation "m ;; k" := (bind m (λ _, k))
  (at level 100, k at level 200, right associativity, only parsing).

(** *** Calls on the collaborators *)

(** [i18n.cacheStore.Unmarshal(key, &out)]: the slot after the call, and
    whether the call returned nil. *)
Definition cacheStore_Unmarshal (key : string) (out : Translation)
  : M (Translation * error) :=
  λ i18n,
    (match cache.Unmarshal (cacheStore i18n) key with
     | cache.Hit d => (decode_into d out, nil)
     | cache.Miss err => (out, errors_New err)
     end, i18n, [CacheUnmarshal key]).

(** [i18n.cacheStore.Set(key, translation)] *)
Definition cacheStore_Set (key : string) (t : Translation) : M error :=
  λ i18n,
    let '(c, err) := cache.Set_ (cacheStore i18n) key t in
    (err, with_cacheStore i18n c, [CacheSet key t]).

(** [i18n.cacheStore.Delete(key)] *)
Definition cacheStore_Delete (key : string) : M error :=
  λ i18n,
    let '(c, err) := cache.Delete (cacheStore i18n) key in
    (err, with_cacheStore i18n c, [CacheDelete key]).

(** A call on [i18n.Backends[i]] that may change that backend.  The loops
    below only pass positions of the chain; outside of it nothing is called
    and [dflt] is returned. *)
Definition on_backend {A} (i : nat) (call : B → B * A) (ev : Event) (dflt : A)
  : M A :=
  λ i18n,
    match Backends i18n !! i with
    | Some b =>
        let '(b', a) := call b in
        (a, with_Backends i18n (<[i := b']> (Backends i18n)), [ev])
    | None => (dflt, i18n, [])
    end.

(** [backends[i].LoadTranslations()] *)
Definition backend_LoadTranslations (i : nat) : M (list Translation) :=
  on_backend i (λ b, (b, backend.LoadTranslations b)) (BackendLoad i) [].

(** [backend.SaveTranslation(translation)] on the backend at position [i] *)
Definition backend_SaveTranslation (i : nat) (t : Translation) : M error :=
  on_backend i (λ b, backend.SaveTranslation b t) (BackendSave i t)
    (errors_New "no backend").

(** [backend.DeleteTranslation(translation)] on the backend at position [i] *)
Definition backend_DeleteTranslation (i : nat) (t : Translation) : M error :=
  on_backend i (λ b, backend.DeleteTranslation b t) (BackendDelete i t)
    (errors_New "no backend").

(** *** [LoadTranslations] *)

(** The body of [for _, translation := range backend.LoadTranslations()]:
    the map of the record's locale is created when there is none, then the
    record is put under its key in it. *)
Definition LoadTranslations_record
    (translations : gmap string (gmap string Translation))
    (translation : Translation) : gmap string (gmap string Translation) :=
  let translations :=
    match translations !! Locale translation with
    | None => <[Locale translation := ∅]> translations
    | Some _ => translations
    end in
  match translations !! Locale translation with
  | Some keys =>
      <[Locale translation := <[Key translation := translation]> keys]>
        translations
  | None => translations
  end.

Fixpoint LoadTranslations_records
    (translations : gmap string (gmap string Translation))
    (records : list Translation) : gmap string (gmap string Translation) :=
  match records with
  | [] => translations
  | translation :: rest =>
      LoadTranslations_records
        (LoadTranslations_record translations translation) rest
  end.

(** [for i := len(i18n.Backends); i > 0; i--], entered with [i = n]; the
    backend is [i18n.Backends[i-1]]. *)
Fixpoint LoadTranslations_from (n : nat)
    (translations : gmap string (gmap string Translation))
  : M (gmap string (gmap string Translation)) :=
  match n with
  | 0 => ret translations
  | S i =>
      records <- backend_LoadTranslations i ;;
      LoadTranslations_from i (LoadTranslations_records translations records)
  end.

Definition LoadTranslations : M (gmap string (gmap string Translation)) :=
  i18n <- self ;;
  let translations := ∅ in
  LoadTranslations_from (length (Backends i18n)) translations.

(** *** [AddTranslation] *)
Definition AddTranslation (translation : Translation) : M error :=
  cacheStore_Set (cacheKey [Locale translation; Key translation]) translation.

(** *** [loadToCacheStore] *)

(** [for _, translation := range backend.LoadTranslations()] *)
Fixpoint loadToCacheStore_records (translations : list Translation) : M unit :=
  match translations with
  | [] => ret tt
  | translation :: rest =>
      AddTranslation translation ;;
      loadToCacheStore_records rest
  end.

(** [for i := len(backends) - 1; i >= 0; i--], entered with [n = i + 1] *)
Fixpoint loadToCacheStore_from (n : nat) : M unit :=
  match n with
  | 0 => ret tt
  | S i =>
      translations <- backend_LoadTranslations i ;;
      loadToCacheStore_records translations ;;
      loadToCacheStore_from i
  end.

Definition loadToCacheStore : M unit :=
  i18n <- self ;;
  loadToCacheStore_from (length (Backends i18n)).

(** *** [SetCacheStore] *)
Definition SetCacheStore (store : C) : M unit :=
  (λ i18n, (tt, with_cacheStore i18n store, [])) ;;
  loadToCacheStore.

(** *** [SaveTranslation] *)

(** [for _, backend := range i18n.Backends], over the positions still to
    visit *)
Fixpoint SaveTranslation_range (positions : list nat) (translation : Translation)
  : M error :=
  match positions with
  | [] => ret (errors_New "failed to save translation")
  | i :: rest =>
      err <- backend_SaveTranslation i translation ;;
      if is_nil err then
        AddTranslation translation ;;
        ret nil
      else SaveTranslation_range rest translation
  end.

Definition SaveTranslation (translation : Translation) : M error :=
  i18n <- self ;;
  SaveTranslation_range (seq 0 (length (Backends i18n))) translation.

(** *** [DeleteTranslation] *)

(** [for _, backend := range i18n.Backends], over the positions still to
    visit *)
Fixpoint DeleteTranslation_range (positions : list nat) (translation : Translation)
  : M unit :=
  match positions with
  | [] => ret tt
  | i :: rest =>
      backend_DeleteTranslation i translation ;;
      DeleteTranslation_range rest translation
  end.

Definition DeleteTranslation (translation : Translation) : M error :=
  i18n <- self ;;
  DeleteTranslation_range (seq 0 (length (Backends i18n))) translation ;;
  cacheStore_Delete (cacheKey [Locale translation; Key translation]).

(** *** [T] *)

(** [for _, fallbackLocale := range fallbackLocales], with its [break] *)
Fixpoint T_fallbacks (fallbackLocales : list string) (key : string)
    (translation : Translation) : M Translation :=
  match fallbackLocales with
  | [] => ret translation
  | fallbackLocale :: rest =>
      found <- cacheStore_Unmarshal (cacheKey [fallbackLocale; key]) translation ;;
      let '(translation, err) := found in
      if is_nil err && negb (String.eqb (Value translation) "") then ret translation
      else T_fallbacks rest key translation
  end.

(** Lines 119 to 160 of [T]: the effective locale and the record the lookup
    settles on. *)
Definition T_translation (locale key : string) : M (string * Translation) :=
  i18n <- self ;;
  let value := value i18n in
  let translationKey := key in
  let fallbackLocales := fallbackLocales i18n in
  let locale := if String.eqb locale "" then Default else locale in
  let fallbackLocales :=
    match FallbackLocales i18n !! locale with
    | Some locales => fallbackLocales ++ locales
    | None => fallbackLocales
    end in
  let fallbackLocales := fallbackLocales ++ [Default] in
  let translationKey :=
    if negb (String.eqb (scope i18n) "")
    then strings_Join [scope i18n; key] "."
    else translationKey in
  let translation := zero_Translation in
  found <- cacheStore_Unmarshal (cacheKey [locale; key]) translation ;;
  let '(translation, err) := found in
  translation <-
    (if negb (is_nil err) || String.eqb (Value translation) "" then
       translation <- T_fallbacks fallbackLocales key translation ;;
       if String.eqb (Value translation) "" then
         found <- cacheStore_Unmarshal (cacheKey [Default; key]) translation ;;
         let '(translation, err) := found in
         if negb (is_nil err) || String.eqb (Value translation) "" then
           i18n <- self ;;
           let defaultBackend :=
             if Nat.ltb 0 (length (Backends i18n)) then Some 0%nat else None in
           let translation :=
             {| Key := translationKey; Value := value; Locale := locale;
                Backend := defaultBackend |} in
           SaveTranslation translation ;;
           ret translation
         else ret translation
       else ret translation
     else ret translation) ;;
  ret (locale, translation).

(** Lines 168 to 170 of [T]: the formatter's rendering, or the value as it
    stands when the formatter fails. *)
Definition T_formatted (locale value : string) (args : list Arg) : string :=
  match cldr.Parse locale value args with
  | (str, None) => str
  | (_, Some _) => value
  end.

(** Lines 162 to 172 of [T]: the value shown for the record, formatted. *)
Definition T_value (locale key : string) (translation : Translation)
    (args : list Arg) : HTML :=
  let value :=
    if negb (String.eqb (Value translation) "") then Value translation else key in
  T_formatted locale value args.

Definition T (locale key : string) (args : list Arg) : M HTML :=
  resolved <- T_translation locale key ;;
  let '(locale, translation) := resolved in
  ret (T_value locale key translation args).

(** *** Vocabulary of the statements *)

(** The backend accepts the record: its [SaveTranslation] returns nil. *)
Definition accepts (t : Translation) (b : B) : bool :=
  is_nil (backend.SaveTranslation b t).2.

(** The backend as its [SaveTranslation], resp. [DeleteTranslation], leaves
    it. *)
Definition saved (t : Translation) (b : B) : B :=
  (backend.SaveTranslation b t).1.
Definition deleted (t : Translation) (b : B) : B :=
  (backend.DeleteTranslation b t).1.

(** The position of the first backend of the chain that accepts the
    record. *)
Fixpoint first_accepting (t : Translation) (bs : list B) : option nat :=
  match bs with
  | [] => None
  | b :: rest =>
      if accepts t b then Some 0%nat else S <$> first_accepting t rest
  end.

(** A probe of the cache that succeeds with a non-empty value. *)
Definition usable (c : C) (key : string) : bool :=
  match cache.Unmarshal c key with
  | cache.Hit d => negb (String.eqb (doc_Value d) "")
  | cache.Miss _ => false
  end.

(** The document of the first usable probe among [keys]. *)
Fixpoint find_usable (c : C) (keys : list string) : option Document :=
  match keys with
  | [] => None
  | key :: rest =>
      match cache.Unmarshal c key with
      | cache.Hit d =>
          if negb (String.eqb (doc_Value d) "") then Some d
          else find_usable c rest
      | cache.Miss _ => find_usable c rest
      end
  end.

(** The keys of [keys] up to and including the first usable one. *)
Fixpoint upto_usable (c : C) (keys : list string) : list string :=
  match keys with
  | [] => []
  | key :: rest =>
      if usable c key then [key] else key :: upto_usable c rest
  end.

(** The locale [T] works with: the default one for the empty locale. *)
Definition effective_locale (locale : string) : string :=
  if String.eqb locale "" then Default else locale.

(** The locales the loop of [T] goes through for the (effective) locale:
    the engine's own fallback locales, the ones configured for the locale,
    the default locale. *)
Definition fallback_chain (i18n : I18n) (locale : string) : list string :=
  (fallbackLocales i18n ++ default [] (FallbackLocales i18n !! locale))
  ++ [Default].

(** The cache keys [T] probes when every probe fails, in order: lines 139,
    141 and 148. *)
Definition probe_plan (i18n : I18n) (locale key : string) : list string :=
  cacheKey [locale; key]
  :: map (λ l, cacheKey [l; key]) (fallback_chain i18n locale)
  ++ [cacheKey [Default; key]].

(** The key of a record [T] creates: line 134. *)
Definition scoped_key (i18n : I18n) (key : string) : string :=
  if negb (String.eqb (scope i18n) "") then scope i18n +:+ "." +:+ key else key.

(** The record [T] creates when no probe is usable: line 154. *)
Definition placeholder (i18n : I18n) (locale key : string) : Translation :=
  {| Key := scoped_key i18n key; Locale := locale; Value := value i18n;
     Backend := if Nat.ltb 0 (length (Backends i18n)) then Some 0%nat else None |}.

(** The store after [AddTranslation] of the records [ts], one after the
    other. *)
Definition store_all (c : C) (ts : list Translation) : C :=
  foldl (λ c t, (cache.Set_ c (cacheKey [Locale t; Key t]) t).1) c ts.

(** The calls the full load makes for the backend at position [i]. *)
Definition load_calls (i : nat) (b : B) : list Event :=
  BackendLoad i
  :: ((λ t, CacheSet (cacheKey [Locale t; Key t]) t)
        <$> backend.LoadTranslations b).

(** The last of the records that [P] holds of. *)
Fixpoint last_matching (P : Translation → bool) (ts : list Translation)
  : option Translation :=
  match ts with
  | [] => None
  | t :: rest =>
      match last_matching P rest with
      | Some t' => Some t'
      | None => if P t then Some t else None
      end
  end.

(** The record a load over the chain [bs] leaves for the records that [P]
    holds of: the last such record of the first declared backend that
    reports one. *)
Fixpoint first_declared (P : Translation → bool) (bs : list B)
  : option Translation :=
  match bs with
  | [] => None
  | b :: rest =>
      match last_matching P (backend.LoadTranslations b) with
      | Some t => Some t
      | None => first_declared P rest
      end
  end.

(** The record is stored under the cache key [key]. *)
Definition stored_under (key : string) (t : Translation) : bool :=
  String.eqb (cacheKey [Locale t; Key t]) key.

(** The record is of locale [locale] and key [key]. *)
Definition is_entry (locale key : string) (t : Translation) : bool :=
  String.eqb (Locale t) locale && String.eqb (Key t) key.

(** The record of locale [locale] and key [key] in the map that
    [LoadTranslations] returns. *)
Definition entry (translations : gmap string (gmap string Translation))
    (locale key : string) : option Translation :=
  match translations !! locale with
  | Some keys => keys !! key
  | None => None
  end.

(** The keys probed by a run, in order. *)
Definition probes (evs : list Event) : list string :=
  omap (λ e, match e with CacheUnmarshal key => Some key | _ => None end) evs.

(** The records a run handed to a backend or to the cache store. *)
Definition written (evs : list Event) : list Translation :=
  omap (λ e, match e with
             | CacheSet _ t | BackendSave _ t => Some t
             | _ => None
             end) evs.

End Engine.

Arguments I18n : clear implicits.
Arguments M : clear implicits.

(** ** Assets of the inline editor, and the locale of a request *)

Module utils.

(** What the process sees of its environment: [utils.GOPATH()],
    [filepath.Join(dir, file)] and [ioutil.ReadFile(path)]. *)
Class Files : Type := {
  GOPATH : list string;
  Join : string → string → string;
  ReadFile : string → string * error
}.

(** [utils.GetLocale(context)], over request contexts of type [Ctx]. *)
Class Locales (Ctx : Type) : Type :=
  GetLocale : Ctx → string.

End utils.

Section Assets.

Context {package : Package} {files : utils.Files}.

(** The double quote, as a string. *)
Definition quote : string := String "034"%char EmptyString.

(** The script tag of line 183. *)
Definition jquery_tag : string :=
  "<script src=" +:+ quote
  +:+ "http://code.jquery.com/jquery-2.0.3.min.js" +:+ quote
  +:+ "></script>".

Definition libs_file : string :=
  "src/github.com/qor/i18n/views/themes/i18n/inline-edit-libs.tmpl".
Definition css_file : string :=
  "src/github.com/qor/i18n/views/themes/i18n/assets/stylesheets/i18n-inline.css".
Definition js_file : string :=
  "src/github.com/qor/i18n/views/themes/i18n/assets/javascripts/i18n-inline.js".

(** One turn of the loop of [RenderInlineEditAssets], lines 179 to 205: the
    content put together for [gopath], and [hasError]. *)
Definition RenderInlineEditAssets_gopath
    (isIncludeJQuery isIncludeExtendAssetLib : bool) (gopath : string)
  : string * bool :=
  let content := "" in
  let hasError := false in
  let content := if isIncludeJQuery then jquery_tag else content in
  let '(content, hasError) :=
    if isIncludeExtendAssetLib then
      let '(content, hasError) :=
        match utils.ReadFile (utils.Join gopath libs_file) with
        | (extendLib, None) => (content +:+ extendLib, hasError)
        | (_, Some _) => (content, true)
        end in
      match utils.ReadFile (utils.Join gopath css_file) with
      | (css, None) => (content +:+ ("<style>" +:+ css +:+ "</style>"), hasError)
      | (_, Some _) => (content, true)
      end
    else (content, hasError) in
  match utils.ReadFile (utils.Join gopath js_file) with
  | (js, None) =>
      (content
       +:+ ("<script type=" +:+ quote +:+ "text/javascript" +:+ quote +:+ ">"
            +:+ js +:+ "</script>"),
       hasError)
  | (_, Some _) => (content, true)
  end.

(** [for _, gopath := range utils.GOPATH()] *)
Fixpoint RenderInlineEditAssets_range
    (gopaths : list string) (isIncludeJQuery isIncludeExtendAssetLib : bool)
  : HTML * error :=
  match gopaths with
  | [] => ("", errors_New "templates not found")
  | gopath :: rest =>
      let '(content, hasError) :=
        RenderInlineEditAssets_gopath isIncludeJQuery isIncludeExtendAssetLib
          gopath in
      if negb hasError then (content, nil)
      else RenderInlineEditAssets_range rest isIncludeJQuery
             isIncludeExtendAssetLib
  end.

(** [RenderInlineEditAssets] *)
Definition RenderInlineEditAssets
    (isIncludeJQuery isIncludeExtendAssetLib : bool) : HTML * error :=
  RenderInlineEditAssets_range utils.GOPATH isIncludeJQuery
    isIncludeExtendAssetLib.

(** [getLocaleFromContext] *)
Definition getLocaleFromContext {Ctx} `{!utils.Locales Ctx} (context : Ctx)
  : string :=
  let locale := utils.GetLocale context in
  if negb (String.eqb locale "") then locale else Default.

(** The file is there to read under [gopath]. *)
Definition readable (gopath file : string) : bool :=
  is_nil (utils.ReadFile (utils.Join gopath file)).2.

(** What [ioutil.ReadFile] gives for the file under [gopath]. *)
Definition file_content (gopath file : string) : string :=
  (utils.ReadFile (utils.Join gopath file)).1.

(** The files a turn of the loop needs are all there under [gopath]. *)
Definition complete (isIncludeExtendAssetLib : bool) (gopath : string) : bool :=
  (if isIncludeExtendAssetLib
   then readable gopath libs_file && readable gopath css_file
   else true)
  && readable gopath js_file.

(** The content of a complete turn, without the script tag of jQuery. *)
Definition assets (isIncludeExtendAssetLib : bool) (gopath : string) : string :=
  (if isIncludeExtendAssetLib
   then file_content gopath libs_file
        +:+ ("<style>" +:+ file_content gopath css_file +:+ "</style>")
   else "")
  +:+ ("<script type=" +:+ quote +:+ "text/javascript" +:+ quote +:+ ">"
       +:+ file_content gopath js_file +:+ "</script>").

End Assets.

(** ** The default cache store *)

Module memory.

(** Modelled from the spec: the in-memory store that [New] installs
    ([memory.New()] of the cache library, whose code is not in this
    repository), after the contract of section 4.1: a mapping from the
    composite key to the serialized record; [Set] overwrites and does not
    fail; [Unmarshal] decodes the stored document or reports not-found;
    [Delete] is idempotent and does not fail. *)
Definition New : gmap string Document := ∅.

#[global] Instance store : cache.CacheStoreInterface (gmap string Document) := {|
  cache.Unmarshal values key :=
    match values !! key with
    | Some d => cache.Hit d
    | None => cache.Miss "not found"
    end;
  cache.Set_ values key t := (<[key := Marshal t]> values, nil);
  cache.Delete values key := (delete key values, nil)
|}.

End memory.

(** [New(backends...)]: the engine, with the calls made while loading. *)
Definition New {B} `{!backend.Interface B} (backends : list B)
  : unit * I18n (gmap string Document) B * list Event :=
  loadToCacheStore
    {| scope := ""; value := ""; Backends := backends; FallbackLocales := ∅;
       fallbackLocales := []; cacheStore := memory.New |}.

(** ** Collaborators for the examples *)

Module fixtures.

(** A backend that keeps its records in a list.  A read-only one refuses to
    save and to delete; a writable one appends what it is given to save and
    drops the records of the same locale and key on delete. *)
Record table : Type := mkTable {
  rows : list Translation;
  readonly : bool
}.

Definition same_entry (t r : Translation) : bool :=
  String.eqb (Locale t) (Locale r) && String.eqb (Key t) (Key r).

#[global] Instance table_backend : backend.Interface table := {|
  backend.LoadTranslations b := rows b;
  backend.SaveTranslation b t :=
    if readonly b then (b, errors_New "read-only backend")
    else ({| rows := rows b ++ [t]; readonly := false |}, nil);
  backend.DeleteTranslation b t :=
    if readonly b then (b, errors_New "read-only backend")
    else ({| rows := filter (λ r, same_entry t r = false) (rows b);
             readonly := false |}, nil)
|}.

(** The package variable as the source initialises it. *)
#[global] Instance en_US : Package := "en-US".

(** A formatter that renders every template as it stands. *)
#[global] Instance verbatim : cldr.Formatter string :=
  λ _ value _, (value, nil).

(** A formatter that fails on every template. *)
Definition failing : cldr.Formatter string :=
  λ _ _ _, ("", errors_New "cannot parse").

Definition tr (locale key text : string) : Translation :=
  {| Key := key; Locale := locale; Value := text; Backend := None |}.

(** Two backends that both have a greeting in French; the first declared
    also has one in the default locale, the second is read-only. *)
Definition site : table :=
  {| rows := [tr "fr" "greeting" "Bonjour"; tr "en-US" "greeting" "Hello"];
     readonly := false |}.
Definition vendor : table :=
  {| rows := [tr "fr" "greeting" "Salut"]; readonly := true |}.

(** An engine over them with fallback locales for Canadian French. *)
Definition canadian : I18n (gmap string Document) table :=
  {| scope := ""; value := ""; Backends := [site; vendor];
     FallbackLocales := {[ "fr-CA" := ["fr-BE"; "fr"] ]};
     fallbackLocales := [];
     cacheStore := cacheStore (after (New [site; vendor])) |}.

(** Two backends that both have locale "en", key "US/greeting"; the first
    declared also has locale "en/US", key "greeting". *)
Definition slashed_first : table :=
  {| rows := [tr "en" "US/greeting" "A"; tr "en/US" "greeting" "B"];
     readonly := false |}.
Definition slashed_second : table :=
  {| rows := [tr "en" "US/greeting" "Z"]; readonly := false |}.

(** A backend that has locale "en/US", key "greeting" only. *)
Definition slashed_third : table :=
  {| rows := [tr "en/US" "greeting" "B"]; readonly := false |}.

(** Two backends that both have a greeting in the empty locale, and a backend
    whose French greeting has no text. *)
Definition unset_first : table :=
  {| rows := [tr "" "greeting" "Hi"]; readonly := false |}.
Definition unset_second : table :=
  {| rows := [tr "" "greeting" "Yo"]; readonly := false |}.
Definition untranslated : table :=
  {| rows := [tr "fr" "greeting" ""]; readonly := false |}.

(** An engine over a backend with a farewell in French only, with French as
    the fallback locale configured for the empty locale. *)
Definition parting : table :=
  {| rows := [tr "fr" "farewell" "Adieu"]; readonly := false |}.
Definition unlocalised : I18n (gmap string Document) table :=
  {| scope := ""; value := ""; Backends := [parting];
     FallbackLocales := {[ "" := ["fr"] ]};
     fallbackLocales := [];
     cacheStore := cacheStore (after (New [parting])) |}.

(** Engines with nothing to load: over one writable backend, over one
    read-only backend, over no backend, and over no backend with a default
    text. *)
Definition blank : I18n (gmap string Document) table :=
  after (New [{| rows := []; readonly := false |}]).
Definition sealed : I18n (gmap string Document) table :=
  after (New [{| rows := []; readonly := true |}]).
Definition bare : I18n (gmap string Document) table :=
  after (New []).
Definition bare_with_text : I18n (gmap string Document) table :=
  {| scope := ""; value := "N/A"; Backends := []; FallbackLocales := ∅;
     fallbackLocales := []; cacheStore := memory.New |}.

(** A chain whose first backend is read-only. *)
Definition mixed : I18n (gmap string Document) table :=
  after (New [vendor; site; {| rows := []; readonly := false |}]).

(** An engine with a scope and a default text over one writable backend. *)
Definition scoped : I18n (gmap string Document) table :=
  {| scope := "admin"; value := "N/A";
     Backends := [{| rows := []; readonly := false |}];
     FallbackLocales := ∅; fallbackLocales := []; cacheStore := memory.New |}.

(** A file system: the directories of the path list and the files by path. *)
Definition disk (gopaths : list string) (contents : gmap string string)
  : utils.Files :=
  {| utils.GOPATH := gopaths;
     utils.Join dir file := dir +:+ "/" +:+ file;
     utils.ReadFile path :=
       match contents !! path with
       | Some content => (content, nil)
       | None => ("", errors_New "no such file")
       end |}.

(** Two directories: the first has the script only, the second the library,
    the stylesheet and the script. *)
Definition two_roots : utils.Files :=
  disk ["/go1"; "/go2"]
    (<["/go1/" +:+ js_file := "one()"]>
       (<["/go2/" +:+ libs_file := "<libs/>"]>
          (<["/go2/" +:+ css_file := "a{}"]>
             (<["/go2/" +:+ js_file := "two()"]> ∅)))).

End fixtures.

(** * Facts about the engine *)

Section EngineFacts.

Context {C B Arg : Type}.
Context {package : Package}
        {store_impl : cache.CacheStoreInterface C}
        {backend_impl : backend.Interface B}
        {formatter : cldr.Formatter Arg}.

Implicit Types (i18n : I18n C B) (t : Translation) (bs : list B).

(** *** The engine record *)

Lemma with_Backends_same i18n : with_Backends i18n (Backends i18n) = i18n.
Proof. by destruct i18n. Qed.

Lemma with_cacheStore_same i18n : with_cacheStore i18n (cacheStore i18n) = i18n.
Proof. by destruct i18n. Qed.

(** *** Calls on one backend *)

Lemma on_backend_at {A} pre b rest (call : B → B * A) ev dflt i18n :
  Backends i18n = pre ++ b :: rest →
  on_backend (length pre) call ev dflt i18n =
    ((call b).2, with_Backends i18n (pre ++ (call b).1 :: rest), [ev]).
Proof.
  intros Hbs. unfold on_backend.
  rewrite Hbs, list_lookup_middle by done.
  destruct (call b) as [b' a]; simpl.
  by rewrite insert_app_r_alt, Nat.sub_diag by done.
Qed.

(** *** [SaveTranslation] *)

Lemma SaveTranslation_range_run t rest : ∀ pre i18n,
  Backends i18n = pre ++ rest →
  SaveTranslation_range (seq (length pre) (length rest)) t i18n =
    match first_accepting t rest with
    | Some j =>
        (nil,
         with_cacheStore
           (with_Backends i18n
              (pre ++ (saved t <$> take (S j) rest) ++ drop (S j) rest))
           (cache.Set_ (cacheStore i18n) (cacheKey [Locale t; Key t]) t).1,
         ((λ k, BackendSave k t) <$> seq (length pre) (S j))
         ++ [CacheSet (cacheKey [Locale t; Key t]) t])
    | None =>
        (errors_New "failed to save translation",
         with_Backends i18n (pre ++ (saved t <$> rest)),
         (λ k, BackendSave k t) <$> seq (length pre) (length rest))
    end.
Proof.
  induction rest as [|b rest IH]; intros pre i18n Hbs; simpl.
  - unfold ret. by rewrite <-Hbs, with_Backends_same.
  - unfold bind at 1, backend_SaveTranslation.
    rewrite (on_backend_at pre b rest) by done.
    unfold accepts, saved.
    destruct (backend.SaveTranslation b t) as [b' err] eqn:Hsave; simpl.
    destruct (is_nil err) eqn:Herr.
    + rewrite take_0, drop_0. simpl.
      unfold AddTranslation, cacheStore_Set, bind, ret; simpl.
      destruct (cache.Set_ _ _ _) as [c' e']; simpl.
      done.
    + specialize (IH (pre ++ [b']) (with_Backends i18n (pre ++ b' :: rest))).
      rewrite length_app in IH; simpl in IH.
      rewrite Nat.add_1_r in IH. rewrite IH by (simpl; by rewrite <-app_assoc).
      destruct (first_accepting t rest) as [j|]; simpl;
        rewrite <-?app_assoc; simpl; try done.
Qed.

Lemma SaveTranslation_run t i18n :
  SaveTranslation t i18n =
    match first_accepting t (Backends i18n) with
    | Some j =>
        (nil,
         with_cacheStore
           (with_Backends i18n
              ((saved t <$> take (S j) (Backends i18n))
               ++ drop (S j) (Backends i18n)))
           (cache.Set_ (cacheStore i18n) (cacheKey [Locale t; Key t]) t).1,
         ((λ k, BackendSave k t) <$> seq 0 (S j))
         ++ [CacheSet (cacheKey [Locale t; Key t]) t])
    | None =>
        (errors_New "failed to save translation",
         with_Backends i18n (saved t <$> Backends i18n),
         (λ k, BackendSave k t) <$> seq 0 (length (Backends i18n)))
    end.
Proof.
  pose proof (SaveTranslation_range_run t (Backends i18n) [] i18n eq_refl) as Hrun.
  unfold SaveTranslation, bind, self. simpl in Hrun. rewrite Hrun.
  by destruct (first_accepting t (Backends i18n)).
Qed.

Lemma first_accepting_Some t bs j :
  first_accepting t bs = Some j ↔
  ∃ b, bs !! j = Some b ∧ accepts t b = true
       ∧ Forall (λ b', accepts t b' = false) (take j bs).
Proof.
  revert j. induction bs as [|b bs IH]; intros j; simpl.
  - split; [done|]. by intros (b & ? & _).
  - destruct (accepts t b) eqn:Hb.
    + split.
      * intros [= <-]. exists b. by rewrite take_0.
      * intros (b' & Hj & Hacc & Hpre). destruct j as [|j]; [done|].
        simpl in Hpre. apply Forall_cons in Hpre as [? _]. congruence.
    + split.
      * destruct (first_accepting t bs) as [j'|] eqn:Hrest; [|done].
        intros [= <-]. destruct (proj1 (IH j') eq_refl) as (b' & ? & ? & ?).
        exists b'. simpl. split_and!; [done..|]. by constructor.
      * intros (b' & Hj & Hacc & Hpre). destruct j as [|j].
        { simpl in Hj. congruence. }
        simpl in Hj, Hpre. apply Forall_cons in Hpre as [_ Hpre].
        assert (first_accepting t bs = Some j) as ->; [|done].
        apply IH. eauto.
Qed.

Lemma first_accepting_None t bs :
  first_accepting t bs = None ↔ Forall (λ b, accepts t b = false) bs.
Proof.
  induction bs as [|b bs IH]; simpl; [done|].
  destruct (accepts t b) eqn:Hb.
  - split; [done|]. intros [? _]%Forall_cons. congruence.
  - rewrite Forall_cons, <-IH. destruct (first_accepting t bs); simpl.
    + split; [done|]. by intros [_ ?].
    + by split.
Qed.

Lemma first_accepting_lt t bs j :
  first_accepting t bs = Some j → j < length bs.
Proof.
  intros (b & Hj & _)%first_accepting_Some. by eapply lookup_lt_Some.
Qed.

(** [SaveTranslation] leaves the length of the chain, probes nothing, and
    hands nothing but its argument on. *)
Lemma SaveTranslation_length t i18n :
  length (Backends (after (SaveTranslation t i18n))) = length (Backends i18n).
Proof.
  rewrite SaveTranslation_run.
  destruct (first_accepting t (Backends i18n)) as [j|] eqn:Hj;
    unfold after; simpl.
  - rewrite length_app, length_fmap, length_take, length_drop.
    apply first_accepting_lt in Hj. lia.
  - by rewrite length_fmap.
Qed.

Lemma probes_BackendSave t (js : list nat) :
  probes ((λ k, BackendSave k t) <$> js) = [].
Proof. induction js; simpl; done. Qed.

Lemma written_BackendSave t (js : list nat) :
  written ((λ k, BackendSave k t) <$> js) = replicate (length js) t.
Proof. induction js as [|j js IH]; simpl; [done|]. by f_equal. Qed.

Lemma SaveTranslation_probes t i18n :
  probes (calls (SaveTranslation t i18n)) = [].
Proof.
  rewrite SaveTranslation_run.
  destruct (first_accepting t (Backends i18n)); unfold calls, probes; simpl.
  - rewrite omap_app. fold (probes ((λ k, BackendSave k t) <$> seq 1 n)).
    by rewrite probes_BackendSave.
  - apply probes_BackendSave.
Qed.

Lemma SaveTranslation_written t i18n :
  Forall (λ t', t' = t) (written (calls (SaveTranslation t i18n))).
Proof.
  rewrite SaveTranslation_run.
  destruct (first_accepting t (Backends i18n)); unfold calls, written; simpl.
  - constructor; [done|]. rewrite omap_app. apply Forall_app. split.
    + fold (written ((λ k, BackendSave k t) <$> seq 1 n)).
      rewrite written_BackendSave. by apply Forall_replicate.
    + simpl. by constructor.
  - fold (written ((λ k, BackendSave k t) <$> seq 0 (length (Backends i18n)))).
    rewrite written_BackendSave. by apply Forall_replicate.
Qed.

(** *** [DeleteTranslation] *)

Lemma DeleteTranslation_range_run t rest : ∀ pre i18n,
  Backends i18n = pre ++ rest →
  DeleteTranslation_range (seq (length pre) (length rest)) t i18n =
    (tt, with_Backends i18n (pre ++ (deleted t <$> rest)),
     (λ k, BackendDelete k t) <$> seq (length pre) (length rest)).
Proof.
  induction rest as [|b rest IH]; intros pre i18n Hbs; simpl.
  - unfold ret. by rewrite <-Hbs, with_Backends_same.
  - unfold bind at 1, backend_DeleteTranslation.
    rewrite (on_backend_at pre b rest) by done.
    specialize (IH (pre ++ [deleted t b])
                   (with_Backends i18n (pre ++ deleted t b :: rest))).
    rewrite length_app in IH; simpl in IH. rewrite Nat.add_1_r in IH.
    unfold deleted in *. rewrite IH by (simpl; by rewrite <-app_assoc).
    simpl. by rewrite <-app_assoc.
Qed.

Lemma DeleteTranslation_run t i18n :
  DeleteTranslation t i18n =
    ((cache.Delete (cacheStore i18n) (cacheKey [Locale t; Key t])).2,
     with_cacheStore (with_Backends i18n (deleted t <$> Backends i18n))
       (cache.Delete (cacheStore i18n) (cacheKey [Locale t; Key t])).1,
     ((λ k, BackendDelete k t) <$> seq 0 (length (Backends i18n)))
     ++ [CacheDelete (cacheKey [Locale t; Key t])]).
Proof.
  pose proof (DeleteTranslation_range_run t (Backends i18n) [] i18n eq_refl) as Hrun.
  unfold DeleteTranslation, bind, self. simpl in Hrun. rewrite Hrun.
  unfold cacheStore_Delete; simpl.
  by destruct (cache.Delete _ _) as [c' err].
Qed.

(** *** The probes of [T] *)

Lemma find_usable_None (c : C) keys :
  find_usable c keys = None ↔ Forall (λ k, usable c k = false) keys.
Proof.
  induction keys as [|k keys IH]; simpl; [done|].
  rewrite Forall_cons. unfold usable at 1.
  destruct (cache.Unmarshal c k) as [d|e].
  - destruct (negb (doc_Value d =? "")%string).
    + split; [done|]. by intros [? _].
    + rewrite IH. split; [done|]. by intros [_ ?].
  - rewrite IH. split; [done|]. by intros [_ ?].
Qed.

Lemma find_usable_Some_Value (c : C) keys d :
  find_usable c keys = Some d → (doc_Value d =? "")%string = false.
Proof.
  induction keys as [|k keys IH]; simpl; [done|].
  destruct (cache.Unmarshal c k) as [d'|e]; [|done].
  destruct (doc_Value d' =? "")%string eqn:Hv; simpl; [done|]. by intros [= <-].
Qed.

Lemma upto_usable_all (c : C) keys :
  find_usable c keys = None → upto_usable c keys = keys.
Proof.
  rewrite find_usable_None. induction 1 as [|k keys Hk _ IH]; simpl; [done|].
  by rewrite Hk, IH.
Qed.

Lemma upto_usable_app_Some (c : C) keys more d :
  find_usable c keys = Some d →
  find_usable c (keys ++ more) = Some d
  ∧ upto_usable c (keys ++ more) = upto_usable c keys.
Proof.
  induction keys as [|k keys IH]; simpl; [done|]. unfold usable.
  destruct (cache.Unmarshal c k) as [d'|e].
  - destruct (negb (doc_Value d' =? "")%string); [done|].
    intros [-> ->]%IH. done.
  - intros [-> ->]%IH. done.
Qed.

Lemma find_usable_app_None (c : C) keys more :
  find_usable c keys = None →
  find_usable c (keys ++ more) = find_usable c more.
Proof.
  induction keys as [|k keys IH]; simpl; [done|].
  destruct (cache.Unmarshal c k) as [d'|e]; [|done].
  by destruct (negb (doc_Value d' =? "")%string).
Qed.

Lemma T_fallbacks_run key chain : ∀ slot i18n,
  Value slot = "" →
  match find_usable (cacheStore i18n) ((λ l, cacheKey [l; key]) <$> chain) with
  | Some d =>
      T_fallbacks chain key slot i18n =
        (decode_into d slot, i18n,
         CacheUnmarshal <$>
           upto_usable (cacheStore i18n) ((λ l, cacheKey [l; key]) <$> chain))
  | None =>
      ∃ slot',
        T_fallbacks chain key slot i18n =
          (slot', i18n, CacheUnmarshal <$> ((λ l, cacheKey [l; key]) <$> chain))
        ∧ Value slot' = ""
  end.
Proof.
  induction chain as [|l chain IH]; intros slot i18n Hslot; simpl.
  - by exists slot.
  - unfold bind, cacheStore_Unmarshal, usable.
    destruct (cache.Unmarshal (cacheStore i18n) (cacheKey [l; key]))
      as [d|e]; simpl.
    + destruct (doc_Value d =? "")%string eqn:Hd; simpl.
      * specialize (IH (decode_into d slot) i18n).
        destruct (find_usable _ _) as [d'|].
        -- by rewrite IH by by apply String.eqb_eq.
        -- destruct IH as (slot' & Heq & ?); [by apply String.eqb_eq|].
           exists slot'. by rewrite Heq.
      * done.
    + specialize (IH slot i18n Hslot).
      destruct (find_usable _ _) as [d'|].
      * by rewrite IH.
      * destruct IH as (slot' & Heq & ?). exists slot'. by rewrite Heq.
Qed.

Lemma T_translation_run locale key i18n :
  T_translation locale key i18n =
    match find_usable (cacheStore i18n)
            (cacheKey [effective_locale locale; key]
             :: ((λ l, cacheKey [l; key])
                   <$> fallback_chain i18n (effective_locale locale))) with
    | Some d =>
        ((effective_locale locale, decode_into d zero_Translation), i18n,
         CacheUnmarshal <$>
           upto_usable (cacheStore i18n)
             (probe_plan i18n (effective_locale locale) key))
    | None =>
        ((effective_locale locale,
          placeholder i18n (effective_locale locale) key),
         after (SaveTranslation
                  (placeholder i18n (effective_locale locale) key) i18n),
         (CacheUnmarshal <$> probe_plan i18n (effective_locale locale) key)
         ++ calls (SaveTranslation
                     (placeholder i18n (effective_locale locale) key) i18n))
    end.
Proof.
  unfold T_translation, probe_plan. unfold bind at 1. unfold self. cbv zeta.
  fold (effective_locale locale).
  set (eff := effective_locale locale).
  assert (match FallbackLocales i18n !! eff with
          | Some locales => fallbackLocales i18n ++ locales
          | None => fallbackLocales i18n
          end ++ [Default] = fallback_chain i18n eff) as ->.
  { unfold fallback_chain.
    destruct (FallbackLocales i18n !! eff); simpl; by rewrite ?app_nil_r. }
  fold (scoped_key i18n key).
  assert (∃ front, fallback_chain i18n eff = front ++ [Default])
    as [front Hfront] by by eexists.
  set (chain := fallback_chain i18n eff) in *. clearbody chain.
  change (if negb (scope i18n =? "")%string then strings_Join [scope i18n; key] "."
          else key) with (scoped_key i18n key).
  match goal with |- context [bind (T_fallbacks chain key _) ?k] =>
    assert (∀ slot, Value slot = "" →
      bind (T_fallbacks chain key slot) k i18n =
        match find_usable (cacheStore i18n)
                ((λ l, cacheKey [l; key]) <$> chain) with
        | Some d =>
            (decode_into d slot, i18n,
             CacheUnmarshal <$>
               upto_usable (cacheStore i18n)
                 (((λ l, cacheKey [l; key]) <$> chain)
                  ++ [cacheKey [Default; key]]))
        | None =>
            (placeholder i18n eff key,
             after (SaveTranslation (placeholder i18n eff key) i18n),
             (CacheUnmarshal <$>
                (((λ l, cacheKey [l; key]) <$> chain)
                 ++ [cacheKey [Default; key]]))
             ++ calls (SaveTranslation (placeholder i18n eff key) i18n))
        end) as Hinner
  end.
  { intros slot Hslot. unfold bind at 1.
    pose proof (T_fallbacks_run key chain slot i18n Hslot) as Hloop.
    destruct (find_usable _ _) as [d|] eqn:Hfind.
    - rewrite Hloop. simpl.
      rewrite (find_usable_Some_Value _ _ _ Hfind). unfold ret.
      destruct (upto_usable_app_Some _ _ [cacheKey [Default; key]] _ Hfind)
        as [_ ->].
      by rewrite app_nil_r.
    - destruct Hloop as (slot' & -> & Hslot'). rewrite Hslot'. simpl.
      assert (usable (cacheStore i18n) (cacheKey [Default; key]) = false)
        as Hdefault.
      { apply find_usable_None in Hfind. rewrite Hfront, fmap_app in Hfind.
        apply Forall_app in Hfind as [_ Hfind].
        by inversion Hfind. }
      unfold bind at 1, cacheStore_Unmarshal at 1. unfold usable in Hdefault.
      change (if (0 <? length (Backends i18n)) then Some 0%nat else None)
        with (Backend (placeholder i18n eff key)).
      assert (∀ r : Translation * error,
                (negb (is_nil r.2) || (Value r.1 =? "")%string) = true →
                (let '(translation, err) := r in
                 if negb (is_nil err) || (Value translation =? "")%string
                 then
                  bind (λ i18n0 : I18n C B, (i18n0, i18n0, []))
                    (λ i18n0,
                       bind
                         (SaveTranslation
                            {| Key := scoped_key i18n key; Locale := eff;
                               Value := value i18n;
                               Backend :=
                                 if (0 <? length (Backends i18n0))
                                 then Some 0%nat else None |})
                         (λ _ : error,
                            ret
                              {| Key := scoped_key i18n key; Locale := eff;
                                 Value := value i18n;
                                 Backend :=
                                   if (0 <? length (Backends i18n0))
                                   then Some 0%nat else None |}))
                 else ret translation) i18n =
                (placeholder i18n eff key,
                 after (SaveTranslation (placeholder i18n eff key) i18n),
                 calls (SaveTranslation (placeholder i18n eff key) i18n)))
        as Hsynth.
      { intros [tr err] Hr. simpl in Hr. rewrite Hr.
        unfold bind, ret, after, calls.
        change {| Key := scoped_key i18n key; Locale := eff;
                  Value := value i18n;
                  Backend :=
                    if (0 <? length (Backends i18n))
                    then Some 0%nat else None |}
          with (placeholder i18n eff key).
        destruct (SaveTranslation _ i18n) as [[r i'] cs]. simpl.
        by rewrite app_nil_r. }
      rewrite Hsynth.
      + simpl. by rewrite fmap_app, <-app_assoc.
      + destruct (cache.Unmarshal _ _); simpl; [|done].
        simpl in Hdefault. by rewrite negb_false_iff in Hdefault. }
  unfold bind at 1. unfold bind at 1. unfold cacheStore_Unmarshal at 1.
  simpl find_usable. unfold upto_usable; fold (upto_usable (cacheStore i18n)).
  unfold usable at 1.
  destruct (cache.Unmarshal (cacheStore i18n) (cacheKey [eff; key])) as [d|e].
  - simpl. destruct (doc_Value d =? "")%string eqn:Hd; simpl; [|done].
    rewrite Hinner by by apply String.eqb_eq.
    destruct (find_usable _ _); simpl; by rewrite ?app_nil_r.
  - simpl. rewrite Hinner by done.
    destruct (find_usable _ _); simpl; by rewrite ?app_nil_r.
Qed.

Lemma T_run locale key args i18n :
  T locale key args i18n =
    (T_value (result (T_translation locale key i18n)).1 key
       (result (T_translation locale key i18n)).2 args,
     after (T_translation locale key i18n),
     calls (T_translation locale key i18n)).
Proof.
  unfold T, bind, ret, result, after, calls.
  destruct (T_translation locale key i18n) as [[[l tr] i'] cs]. simpl.
  by rewrite app_nil_r.
Qed.

(** *** The full load *)

Lemma backend_LoadTranslations_run i b i18n :
  Backends i18n !! i = Some b →
  backend_LoadTranslations i i18n =
    (backend.LoadTranslations b, i18n, [BackendLoad i]).
Proof.
  intros Hb. unfold backend_LoadTranslations, on_backend. rewrite Hb.
  by rewrite list_insert_id, with_Backends_same.
Qed.

Lemma loadToCacheStore_records_run ts : ∀ i18n,
  loadToCacheStore_records ts i18n =
    (tt, with_cacheStore i18n (store_all (cacheStore i18n) ts),
     (λ t, CacheSet (cacheKey [Locale t; Key t]) t) <$> ts).
Proof.
  induction ts as [|t ts IH]; intros i18n; simpl.
  - unfold ret. by rewrite with_cacheStore_same.
  - unfold bind, AddTranslation, cacheStore_Set.
    destruct (cache.Set_ _ _ _) as [c' err] eqn:Hset.
    rewrite IH. simpl. done.
Qed.

Lemma loadToCacheStore_from_run n : ∀ i18n,
  n ≤ length (Backends i18n) →
  loadToCacheStore_from n i18n =
    (tt,
     with_cacheStore i18n
       (store_all (cacheStore i18n)
          (concat (backend.LoadTranslations
                     <$> reverse (take n (Backends i18n))))),
     concat (reverse (imap load_calls (take n (Backends i18n))))).
Proof.
  induction n as [|n IH]; intros i18n Hn; simpl.
  - unfold ret. by rewrite with_cacheStore_same.
  - destruct (lookup_lt_is_Some_2 (Backends i18n) n) as [b Hb]; [lia|].
    unfold bind. rewrite (backend_LoadTranslations_run n b) by done.
    rewrite loadToCacheStore_records_run, IH by (simpl; lia). simpl.
    rewrite (take_S_r _ _ b) by done.
    rewrite reverse_snoc, imap_app, reverse_app. simpl.
    rewrite Nat.add_0_r, length_take, Nat.min_l by lia.
    unfold store_all. rewrite foldl_app. done.
Qed.

Lemma loadToCacheStore_run i18n :
  loadToCacheStore i18n =
    (tt,
     with_cacheStore i18n
       (store_all (cacheStore i18n)
          (concat (backend.LoadTranslations <$> reverse (Backends i18n)))),
     concat (reverse (imap load_calls (Backends i18n)))).
Proof.
  unfold loadToCacheStore, bind, self.
  rewrite loadToCacheStore_from_run by done. simpl.
  by rewrite firstn_all.
Qed.

Lemma probes_CacheUnmarshal (keys : list string) :
  probes (CacheUnmarshal <$> keys) = keys.
Proof. induction keys as [|k keys IH]; simpl; [done|]. by f_equal. Qed.

Lemma written_CacheUnmarshal (keys : list string) :
  written (CacheUnmarshal <$> keys) = [].
Proof. induction keys; simpl; done. Qed.

Lemma probes_app (evs evs' : list Event) :
  probes (evs ++ evs') = probes evs ++ probes evs'.
Proof. apply omap_app. Qed.

Lemma written_app (evs evs' : list Event) :
  written (evs ++ evs') = written evs ++ written evs'.
Proof. apply omap_app. Qed.

Lemma upto_usable_single (c : C) k : upto_usable c [k] = [k].
Proof. simpl. by destruct (usable c k). Qed.

Lemma upto_usable_app_None (c : C) keys more :
  find_usable c keys = None →
  upto_usable c (keys ++ more) = keys ++ upto_usable c more.
Proof.
  rewrite find_usable_None. induction 1 as [|k keys Hk _ IH]; simpl; [done|].
  by rewrite Hk, IH.
Qed.

Lemma upto_usable_Forall (P : string → Prop) (c : C) keys :
  Forall P keys → Forall P (upto_usable c keys).
Proof.
  induction 1 as [|k keys Hk _ IH]; simpl; [done|].
  destruct (usable c k); by repeat constructor.
Qed.

Lemma find_usable_first (c : C) front k back d :
  Forall (λ k', usable c k' = false) front →
  cache.Unmarshal c k = cache.Hit d →
  doc_Value d ≠ "" →
  find_usable c (front ++ k :: back) = Some d
  ∧ upto_usable c (front ++ k :: back) = front ++ [k].
Proof.
  intros Hfront Hk Hd.
  assert (String.eqb (doc_Value d) "" = false) as Hd' by by apply String.eqb_neq.
  rewrite find_usable_app_None, upto_usable_app_None
    by by apply find_usable_None.
  simpl. unfold usable. by rewrite Hk, Hd'.
Qed.


Lemma probe_plan_split i18n locale key :
  probe_plan i18n locale key =
    (cacheKey [locale; key]
     :: ((λ l, cacheKey [l; key]) <$> fallback_chain i18n locale))
    ++ [cacheKey [Default; key]].
Proof. done. Qed.

Local Arguments find_usable : simpl never.
Local Arguments upto_usable : simpl never.

Lemma T_probes locale key args i18n :
  probes (calls (T locale key args i18n)) =
    upto_usable (cacheStore i18n) (probe_plan i18n (effective_locale locale) key).
Proof.
  rewrite T_run. unfold calls at 1. cbn [snd]. rewrite T_translation_run.
  destruct (find_usable _ _) as [d|] eqn:Hfind; unfold calls at 1; cbn [snd].
  - apply probes_CacheUnmarshal.
  - rewrite probes_app, probes_CacheUnmarshal, SaveTranslation_probes, app_nil_r.
    rewrite probe_plan_split, upto_usable_app_None by done.
    by rewrite upto_usable_single.
Qed.

Lemma total_miss_find i18n locale key :
  Forall (λ k, usable (cacheStore i18n) k = false) (probe_plan i18n locale key) →
  find_usable (cacheStore i18n)
    (cacheKey [locale; key]
     :: ((λ l, cacheKey [l; key]) <$> fallback_chain i18n locale)) = None.
Proof.
  rewrite probe_plan_split, Forall_app. intros [Hmiss _].
  by apply find_usable_None.
Qed.

(** On a total miss [T] is the probes of the plan, then [SaveTranslation] of
    the placeholder. *)
Lemma T_total_miss locale key args i18n :
  Forall (λ k, usable (cacheStore i18n) k = false)
    (probe_plan i18n (effective_locale locale) key) →
  T locale key args i18n =
    (T_formatted (effective_locale locale)
       (if String.eqb (value i18n) "" then key else value i18n) args,
     after (SaveTranslation
              (placeholder i18n (effective_locale locale) key) i18n),
     (CacheUnmarshal <$> probe_plan i18n (effective_locale locale) key)
     ++ calls (SaveTranslation
                 (placeholder i18n (effective_locale locale) key) i18n)).
Proof.
  intros Hmiss%total_miss_find.
  rewrite T_run, T_translation_run, Hmiss. unfold result, after, calls. simpl.
  unfold T_value. simpl. by destruct (String.eqb (value i18n) "").
Qed.

Lemma SetCacheStore_run (c : C) i18n :
  SetCacheStore c i18n =
    (tt,
     with_cacheStore i18n
       (store_all c
          (concat (backend.LoadTranslations <$> reverse (Backends i18n)))),
     concat (reverse (imap load_calls (Backends i18n)))).
Proof. unfold SetCacheStore, bind. by rewrite loadToCacheStore_run. Qed.

(** *** What [T] leaves of the engine *)

Lemma T_first_probe_hit locale key args i18n d :
  cache.Unmarshal (cacheStore i18n) (cacheKey [effective_locale locale; key])
  = cache.Hit d →
  doc_Value d ≠ "" →
  T locale key args i18n =
    (T_formatted (effective_locale locale) (doc_Value d) args, i18n,
     [CacheUnmarshal (cacheKey [effective_locale locale; key])]).
Proof.
  intros Hhit Hd.
  destruct (find_usable_first (cacheStore i18n) []
              (cacheKey [effective_locale locale; key])
              ((λ l, cacheKey [l; key])
                 <$> fallback_chain i18n (effective_locale locale)) d)
    as [Hfind Hupto]; [done..|].
  rewrite !app_nil_l in Hfind, Hupto.
  rewrite T_run, T_translation_run, Hfind. unfold result, after, calls.
  cbn [fst snd]. rewrite probe_plan_split.
  destruct (upto_usable_app_Some (cacheStore i18n) _
              [cacheKey [Default; key]] d Hfind) as [_ ->].
  rewrite Hupto. unfold T_value. simpl.
  apply String.eqb_neq in Hd. by rewrite Hd.
Qed.

Lemma SaveTranslation_settings t i18n :
  scope (after (SaveTranslation t i18n)) = scope i18n
  ∧ value (after (SaveTranslation t i18n)) = value i18n
  ∧ FallbackLocales (after (SaveTranslation t i18n)) = FallbackLocales i18n
  ∧ fallbackLocales (after (SaveTranslation t i18n)) = fallbackLocales i18n.
Proof.
  rewrite SaveTranslation_run.
  by destruct (first_accepting t (Backends i18n)).
Qed.

Lemma T_after locale key args i18n :
  after (T locale key args i18n) = i18n
  ∨ after (T locale key args i18n)
    = after (SaveTranslation
               (placeholder i18n (effective_locale locale) key) i18n).
Proof.
  rewrite T_run. unfold after at 1 3. cbn [fst snd]. rewrite T_translation_run.
  destruct (find_usable _ _); [by left|by right].
Qed.

Lemma T_placeholder_stable locale key args i18n locale' key' :
  placeholder (after (T locale key args i18n)) locale' key'
  = placeholder i18n locale' key'.
Proof.
  destruct (T_after locale key args i18n) as [->| ->]; [done|].
  generalize (placeholder i18n (effective_locale locale) key). intros ph.
  destruct (SaveTranslation_settings ph i18n) as (Hscope & Hvalue & _).
  unfold placeholder, scoped_key.
  by rewrite Hscope, Hvalue, SaveTranslation_length.
Qed.

(** ** Save and delete *)

(** C4.  [SaveTranslation] asks the backends in priority order and stops at
    the first one whose save succeeds: with [j] the position of the first
    backend that accepts the record, it calls backends 0 to [j] in order and
    no other, sets the record in the cache store and returns nil.  When every
    backend rejects the record it has called them all, returns an error and
    leaves the cache store as it was. *)
Theorem SaveTranslation_first_success t i18n :
  match first_accepting t (Backends i18n) with
  | Some j =>
      (∃ b, Backends i18n !! j = Some b ∧ accepts t b = true
            ∧ Forall (λ b', accepts t b' = false) (take j (Backends i18n)))
      ∧ result (SaveTranslation t i18n) = nil
      ∧ calls (SaveTranslation t i18n) =
          ((λ k, BackendSave k t) <$> seq 0 (S j))
          ++ [CacheSet (cacheKey [Locale t; Key t]) t]
      ∧ Backends (after (SaveTranslation t i18n)) =
          (saved t <$> take (S j) (Backends i18n)) ++ drop (S j) (Backends i18n)
      ∧ cacheStore (after (SaveTranslation t i18n)) =
          (cache.Set_ (cacheStore i18n) (cacheKey [Locale t; Key t]) t).1
  | None =>
      Forall (λ b, accepts t b = false) (Backends i18n)
      ∧ result (SaveTranslation t i18n) = errors_New "failed to save translation"
      ∧ calls (SaveTranslation t i18n) =
          (λ k, BackendSave k t) <$> seq 0 (length (Backends i18n))
      ∧ Backends (after (SaveTranslation t i18n)) = saved t <$> Backends i18n
      ∧ cacheStore (after (SaveTranslation t i18n)) = cacheStore i18n
  end.
Proof.
  rewrite SaveTranslation_run.
  destruct (first_accepting t (Backends i18n)) as [j|] eqn:Hfirst.
  - split; [by apply first_accepting_Some|]. done.
  - split; [by apply first_accepting_None|]. done.
Qed.

(** C5.  [DeleteTranslation] calls delete on every backend of the chain, in
    order and whatever they return, then deletes the entry of the record from
    the cache store; what it returns is what the cache store's [Delete]
    returned. *)
Theorem DeleteTranslation_every_backend t i18n :
  calls (DeleteTranslation t i18n) =
    ((λ k, BackendDelete k t) <$> seq 0 (length (Backends i18n)))
    ++ [CacheDelete (cacheKey [Locale t; Key t])]
  ∧ Backends (after (DeleteTranslation t i18n)) = deleted t <$> Backends i18n
  ∧ cacheStore (after (DeleteTranslation t i18n)) =
      (cache.Delete (cacheStore i18n) (cacheKey [Locale t; Key t])).1
  ∧ result (DeleteTranslation t i18n) =
      (cache.Delete (cacheStore i18n) (cacheKey [Locale t; Key t])).2.
Proof. by rewrite DeleteTranslation_run. Qed.

(** ** Lookup *)

(** C2, as amended.  [T] works with the requested locale, or with the default
    one when the requested locale is empty.  It probes the cache for that
    locale, then for each fallback locale in order (the engine's own, the
    ones configured for that locale, the default locale), then for the
    default locale once more, always with the key as given, and stops after
    the first probe that succeeds with a non-empty value.  Hence when the
    probe of a fallback locale is the first usable one, [T] returns the
    value found there, formatted. *)
Theorem T_probe_order locale key args i18n :
  probes (calls (T locale key args i18n)) =
    upto_usable (cacheStore i18n) (probe_plan i18n (effective_locale locale) key)
  ∧ ∀ pre l post d,
      fallback_chain i18n (effective_locale locale) = pre ++ l :: post →
      usable (cacheStore i18n) (cacheKey [effective_locale locale; key]) = false →
      Forall (λ l', usable (cacheStore i18n) (cacheKey [l'; key]) = false) pre →
      cache.Unmarshal (cacheStore i18n) (cacheKey [l; key]) = cache.Hit d →
      doc_Value d ≠ "" →
      result (T locale key args i18n) =
        T_formatted (effective_locale locale) (doc_Value d) args
      ∧ probes (calls (T locale key args i18n)) =
          cacheKey [effective_locale locale; key]
          :: ((λ l', cacheKey [l'; key]) <$> pre ++ [l]).
Proof.
  split; [apply T_probes|].
  intros pre l post d Hchain Hfirst Hpre Hl Hd.
  destruct (find_usable_first (cacheStore i18n)
              (cacheKey [effective_locale locale; key]
               :: ((λ l', cacheKey [l'; key]) <$> pre))
              (cacheKey [l; key]) ((λ l', cacheKey [l'; key]) <$> post) d)
    as [Hfind Hupto]; [|done..|].
  { constructor; [done|]. by apply Forall_fmap. }
  assert (cacheKey [effective_locale locale; key]
          :: ((λ l', cacheKey [l'; key])
                <$> fallback_chain i18n (effective_locale locale))
          = (cacheKey [effective_locale locale; key]
             :: ((λ l', cacheKey [l'; key]) <$> pre))
            ++ cacheKey [l; key] :: ((λ l', cacheKey [l'; key]) <$> post))
    as Hkeys.
  { by rewrite Hchain, fmap_app. }
  split.
  - rewrite T_run, T_translation_run, Hkeys, Hfind.
    unfold result, T_value. simpl.
    apply String.eqb_neq in Hd. by rewrite Hd.
  - rewrite T_probes, probe_plan_split, Hkeys.
    destruct (upto_usable_app_Some (cacheStore i18n) _
                [cacheKey [Default; key]] d Hfind) as [_ ->].
    rewrite Hupto. simpl. by rewrite fmap_app.
Qed.

(** C6.  Every probe [T] makes uses the key as given, with one of the locales
    it goes through; every record [T] hands to a backend or to the cache
    store is the placeholder, whose key is [scope + "." + key] when the engine
    has a scope and the key as given when it has none; and when no probe is
    usable the record [T] settles on is that placeholder. *)
Theorem T_scope_on_placeholder_only locale key args i18n :
  Forall (λ k, ∃ l, l ∈ effective_locale locale
                        :: fallback_chain i18n (effective_locale locale)
                    ∧ k = l +:+ "/" +:+ key)
    (probes (calls (T locale key args i18n)))
  ∧ Forall (λ t, t = placeholder i18n (effective_locale locale) key)
      (written (calls (T locale key args i18n)))
  ∧ (scope i18n ≠ "" →
     Key (placeholder i18n (effective_locale locale) key)
     = scope i18n +:+ "." +:+ key)
  ∧ (scope i18n = "" →
     Key (placeholder i18n (effective_locale locale) key) = key)
  ∧ (Forall (λ k, usable (cacheStore i18n) k = false)
       (probe_plan i18n (effective_locale locale) key) →
     (result (T_translation locale key i18n)).2
     = placeholder i18n (effective_locale locale) key).
Proof.
  split_and!.
  - rewrite T_probes. apply upto_usable_Forall.
    rewrite probe_plan_split. apply Forall_app. split.
    + constructor.
      * exists (effective_locale locale). split; [by left|done].
      * apply Forall_fmap, Forall_forall. intros l Hl.
        exists l. split; [by right|done].
    + apply Forall_singleton. exists Default. split; [|done].
      right. unfold fallback_chain. apply elem_of_app. right. by left.
  - rewrite T_run. unfold calls at 1. cbn [snd]. rewrite T_translation_run.
    destruct (find_usable _ _); unfold calls at 1; cbn [snd].
    + by rewrite written_CacheUnmarshal.
    + rewrite written_app, written_CacheUnmarshal. apply SaveTranslation_written.
  - intros Hscope%String.eqb_neq. simpl. unfold scoped_key. by rewrite Hscope.
  - intros Hscope. simpl. unfold scoped_key. by rewrite Hscope.
  - intros Hmiss%total_miss_find. by rewrite T_translation_run, Hmiss.
Qed.

(** C9.  Whenever no probe is usable, [T] creates the placeholder and runs
    [SaveTranslation] on it: this holds of every call in every state of the
    engine, not of a first call only; with a backend in the chain, the first
    backend is asked to save the placeholder by each such call. *)
Theorem T_saves_on_every_miss locale key args i18n :
  Forall (λ k, usable (cacheStore i18n) k = false)
    (probe_plan i18n (effective_locale locale) key) →
  calls (T locale key args i18n) =
    (CacheUnmarshal <$> probe_plan i18n (effective_locale locale) key)
    ++ calls (SaveTranslation
                (placeholder i18n (effective_locale locale) key) i18n)
  ∧ after (T locale key args i18n) =
      after (SaveTranslation
               (placeholder i18n (effective_locale locale) key) i18n)
  ∧ (Backends i18n ≠ [] →
     BackendSave 0 (placeholder i18n (effective_locale locale) key)
     ∈ calls (T locale key args i18n)).
Proof.
  intros Hmiss. rewrite (T_total_miss _ _ _ _ Hmiss).
  split_and!; [done..|].
  intros Hbs. unfold calls at 1. cbn [snd]. apply elem_of_app. right.
  rewrite SaveTranslation_run.
  destruct (Backends i18n) as [|b bs] eqn:Hchain; [done|].
  destruct (first_accepting _ (b :: bs)); unfold calls; simpl; by left.
Qed.

(** C7, as amended.  [T] is a total function.  The value it hands to the
    formatter is the value of the record it settled on when that is not
    empty, the key as given otherwise, so it is not empty when the key is
    not; [T] returns the formatter's rendering of it, or the value itself when
    the formatter fails. *)
Theorem T_value_or_key locale key args i18n :
  let translation := (result (T_translation locale key i18n)).2 in
  let shown := if String.eqb (Value translation) "" then key else Value translation in
  result (T locale key args i18n)
  = T_formatted (effective_locale locale) shown args
  ∧ (key ≠ "" → shown ≠ "")
  ∧ (∀ err, (cldr.Parse (effective_locale locale) shown args).2 = Some err →
            result (T locale key args i18n) = shown)
  ∧ ((cldr.Parse (effective_locale locale) shown args).2 = None →
     result (T locale key args i18n)
     = (cldr.Parse (effective_locale locale) shown args).1).
Proof.
  intros translation shown.
  assert (result (T locale key args i18n)
          = T_formatted (effective_locale locale) shown args) as Hshown.
  { rewrite T_run. unfold result at 1. cbn [fst]. subst shown translation.
    rewrite T_translation_run.
    destruct (find_usable _ _); unfold result, T_value; cbn [fst snd];
      by destruct (String.eqb _ ""). }
  split_and!; [done| | |].
  - intros Hkey. subst shown.
    destruct (String.eqb (Value translation) "") eqn:Hv; [done|].
    by apply String.eqb_neq.
  - intros err Herr. rewrite Hshown. unfold T_formatted.
    destruct (cldr.Parse _ _ _) as [str e]. simpl in Herr. by rewrite Herr.
  - intros Hok. rewrite Hshown. unfold T_formatted.
    destruct (cldr.Parse _ _ _) as [str e]. simpl in Hok. by rewrite Hok.
Qed.

(** C10, as amended.  With no backend, [SaveTranslation] returns an error,
    calls nothing and leaves the engine as it was; a call of [T] for which no
    probe is usable then makes its probes and no other call, leaves the
    engine as it was, and returns (formatted) the engine's default text, or
    the key as given when the engine has no default text. *)
Theorem T_without_backends locale key args i18n :
  Backends i18n = [] →
  (∀ t, SaveTranslation t i18n
        = (errors_New "failed to save translation", i18n, []))
  ∧ (Forall (λ k, usable (cacheStore i18n) k = false)
       (probe_plan i18n (effective_locale locale) key) →
     T locale key args i18n
     = (T_formatted (effective_locale locale)
          (if String.eqb (value i18n) "" then key else value i18n) args,
        i18n,
        CacheUnmarshal <$> probe_plan i18n (effective_locale locale) key)).
Proof.
  intros Hbs.
  assert (∀ t, SaveTranslation t i18n
               = (errors_New "failed to save translation", i18n, [])) as Hsave.
  { intros t. rewrite SaveTranslation_run, Hbs. simpl.
    by rewrite <-Hbs, with_Backends_same. }
  split; [done|].
  intros Hmiss. rewrite (T_total_miss _ _ _ _ Hmiss), Hsave.
  unfold after, calls. simpl. by rewrite app_nil_r.
Qed.

End EngineFacts.

(** * The engine over the default cache store *)

Section MemoryFacts.

Context {B Arg : Type}.
Context {package : Package}
        {backend_impl : backend.Interface B} {formatter : cldr.Formatter Arg}.

Implicit Types (i18n : I18n (gmap string Document) B) (t : Translation).
Implicit Types (values : gmap string Document).

Lemma store_all_app values ts ts' :
  store_all values (ts ++ ts') = store_all (store_all values ts) ts'.
Proof. apply foldl_app. Qed.

Lemma store_all_cons values t ts :
  store_all values (t :: ts)
  = store_all (<[cacheKey [Locale t; Key t] := Marshal t]> values) ts.
Proof. done. Qed.

Lemma store_all_other values ts key :
  Forall (λ t, cacheKey [Locale t; Key t] ≠ key) ts →
  store_all values ts !! key = values !! key.
Proof.
  intros Hts. revert values.
  induction Hts as [|t ts Ht _ IH]; intros values; [done|].
  rewrite store_all_cons, IH. by apply lookup_insert_ne.
Qed.

Lemma store_all_last values front t back :
  Forall (λ t', cacheKey [Locale t'; Key t'] ≠ cacheKey [Locale t; Key t]) back →
  store_all values (front ++ t :: back) !! cacheKey [Locale t; Key t]
  = Some (Marshal t).
Proof.
  intros Hback.
  rewrite store_all_app, store_all_cons, store_all_other by done.
  apply lookup_insert_eq.
Qed.

Lemma usable_memory values key :
  usable values key = true ↔
  ∃ d, values !! key = Some d ∧ doc_Value d ≠ "".
Proof.
  unfold usable. simpl. destruct (values !! key) as [d|].
  - rewrite negb_true_iff, String.eqb_neq. split; [by exists d|].
    by intros (d' & [= <-] & ?).
  - split; [done|]. by intros (d' & ? & _).
Qed.

Lemma SaveTranslation_memory t i18n :
  cacheStore (after (SaveTranslation t i18n)) =
    match first_accepting t (Backends i18n) with
    | Some _ => <[cacheKey [Locale t; Key t] := Marshal t]> (cacheStore i18n)
    | None => cacheStore i18n
    end.
Proof.
  rewrite SaveTranslation_run.
  by destruct (first_accepting t (Backends i18n)).
Qed.

Lemma DeleteTranslation_memory t i18n :
  result (DeleteTranslation t i18n) = nil
  ∧ cacheStore (after (DeleteTranslation t i18n))
    = delete (cacheKey [Locale t; Key t]) (cacheStore i18n).
Proof. by rewrite DeleteTranslation_run. Qed.

Lemma SaveTranslation_probe_plan t i18n locale key :
  probe_plan (after (SaveTranslation t i18n)) locale key
  = probe_plan i18n locale key.
Proof.
  destruct (SaveTranslation_settings t i18n) as (_ & _ & Hmap & Hlist).
  unfold probe_plan, fallback_chain. by rewrite Hmap, Hlist.
Qed.

(** With no default text, a lookup that found nothing usable leaves nothing
    usable: the placeholder it may have cached has an empty value. *)
Lemma T_miss_stays locale key args i18n :
  value i18n = "" →
  Forall (λ k, usable (cacheStore i18n) k = false)
    (probe_plan i18n (effective_locale locale) key) →
  Forall (λ k, usable (cacheStore (after (T locale key args i18n))) k = false)
    (probe_plan (after (T locale key args i18n)) (effective_locale locale) key).
Proof.
  intros Hvalue Hmiss.
  assert (after (T locale key args i18n)
          = after (SaveTranslation
                     (placeholder i18n (effective_locale locale) key) i18n))
    as -> by by rewrite (T_total_miss _ _ _ _ Hmiss).
  rewrite SaveTranslation_probe_plan, SaveTranslation_memory.
  destruct (first_accepting _ (Backends i18n)); [|done].
  eapply Forall_impl; [exact Hmiss|]. intros k Hk. unfold usable in *.
  cbn [cache.Unmarshal memory.store] in *.
  destruct (decide (cacheKey [Locale (placeholder i18n (effective_locale locale) key);
                              Key (placeholder i18n (effective_locale locale) key)]
                    = k)) as [<-|Hne].
  - rewrite lookup_insert_eq. simpl. by rewrite Hvalue.
  - by rewrite lookup_insert_ne.
Qed.

(** X19.  With no default text, a lookup that found nothing usable leaves
    nothing usable, so the same lookup made again right away makes the same
    probes and runs [SaveTranslation] on the placeholder again. *)
Lemma T_miss_again locale key args i18n :
  value i18n = "" →
  Forall (λ k, usable (cacheStore i18n) k = false)
    (probe_plan i18n (effective_locale locale) key) →
  calls (T locale key args (after (T locale key args i18n)))
  = (CacheUnmarshal <$> probe_plan i18n (effective_locale locale) key)
    ++ calls (SaveTranslation
                (placeholder i18n (effective_locale locale) key)
                (after (T locale key args i18n))).
Proof.
  intros Hvalue Hmiss.
  rewrite (T_total_miss _ _ _ _ (T_miss_stays _ _ args _ Hvalue Hmiss)).
  unfold calls at 1. cbn [snd]. rewrite T_placeholder_stable.
  assert (after (T locale key args i18n)
          = after (SaveTranslation
                     (placeholder i18n (effective_locale locale) key) i18n))
    as Hafter by by rewrite (T_total_miss _ _ _ _ Hmiss).
  rewrite Hafter at 1. by rewrite SaveTranslation_probe_plan.
Qed.

(** ** The full load *)

(** C1, as amended.  For every chain of backends, the full load, at
    construction and when the cache store is replaced, goes through the
    backends from the last declared to the first and adds every record each
    reports, in the order reported, and leaves the chain as it is.  For every
    record [t] a backend [b] of the chain reports, whatever the backends
    declared after [b] report for its locale and key: when no backend
    declared before [b] reports a record with the composite key of [t], and
    [b] reports none after [t], the cache entry under that key is [t]; so the
    first declared backend that defines a locale and key wins the entry,
    unless another record joins to the same composite key.  A lookup of that
    locale and key, when the locale is not empty and the value of [t] is not
    empty, returns the value of [t], formatted. *)
Theorem loadToCacheStore_first_declared_wins (bs : list B) (args : list Arg) :
  calls (New bs) = concat (reverse (imap load_calls bs))
  ∧ Backends (after (New bs)) = bs
  ∧ (∀ i18n values,
       Backends i18n = bs →
       calls (SetCacheStore values i18n) = concat (reverse (imap load_calls bs))
       ∧ Backends (after (SetCacheStore values i18n)) = bs)
  ∧ ∀ (front : list B) (b : B) (back : list B)
      (pre : list Translation) (t : Translation) (post : list Translation),
      bs = front ++ b :: back →
      backend.LoadTranslations b = pre ++ t :: post →
      Forall (λ b', Forall (λ t', cacheKey [Locale t'; Key t']
                                  ≠ cacheKey [Locale t; Key t])
                      (backend.LoadTranslations b')) front →
      Forall (λ t', cacheKey [Locale t'; Key t'] ≠ cacheKey [Locale t; Key t])
        post →
      cache.Unmarshal (cacheStore (after (New bs))) (cacheKey [Locale t; Key t])
      = cache.Hit (Marshal t)
      ∧ (Locale t ≠ "" → Value t ≠ "" →
         result (T (Locale t) (Key t) args (after (New bs)))
         = T_formatted (Locale t) (Value t) args)
      ∧ (∀ i18n values,
           Backends i18n = bs →
           cache.Unmarshal (cacheStore (after (SetCacheStore values i18n)))
             (cacheKey [Locale t; Key t])
           = cache.Hit (Marshal t)
           ∧ (Locale t ≠ "" → Value t ≠ "" →
              result (T (Locale t) (Key t) args
                        (after (SetCacheStore values i18n)))
              = T_formatted (Locale t) (Value t) args)).
Proof.
  split_and!.
  - unfold New. by rewrite loadToCacheStore_run.
  - unfold New. by rewrite loadToCacheStore_run.
  - intros i18n values Hbs. by rewrite SetCacheStore_run, Hbs.
  - intros front b back pre t post Hbs Hload Hfront Hpost.
    assert (∀ values,
              store_all values (concat (backend.LoadTranslations <$> reverse bs))
              !! cacheKey [Locale t; Key t] = Some (Marshal t)) as Hwins.
    { intros values.
      rewrite Hbs, reverse_app, reverse_cons, fmap_app, fmap_app, concat_app,
        concat_app.
      simpl. rewrite app_nil_r, Hload, <-!app_assoc, app_assoc.
      rewrite <-app_comm_cons. apply store_all_last.
      apply Forall_app. split; [done|].
      apply Forall_concat, Forall_fmap, Forall_reverse.
      eapply Forall_impl; [exact Hfront|]. by intros b' Hb'. }
    assert (∀ i18n,
              cacheStore i18n !! cacheKey [Locale t; Key t] = Some (Marshal t) →
              Locale t ≠ "" → Value t ≠ "" →
              result (T (Locale t) (Key t) args i18n)
              = T_formatted (Locale t) (Value t) args) as Hlookup.
    { intros i18n Hentry Hlocale Hvalue.
      assert (effective_locale (Locale t) = Locale t) as Heff.
      { unfold effective_locale. apply String.eqb_neq in Hlocale.
        by rewrite Hlocale. }
      rewrite (T_first_probe_hit _ _ _ _ (Marshal t)); rewrite ?Heff; [done| |done].
      cbn [cache.Unmarshal memory.store]. by rewrite Hentry. }
    assert (cacheStore (after (New bs)) !! cacheKey [Locale t; Key t]
            = Some (Marshal t)) as Hnew.
    { unfold New. rewrite loadToCacheStore_run. unfold after. cbn [fst snd].
      cbn [cacheStore with_cacheStore Backends]. apply Hwins. }
    split_and!.
    + cbn [cache.Unmarshal memory.store]. by rewrite Hnew.
    + by apply Hlookup.
    + intros i18n values Hbs'.
      assert (cacheStore (after (SetCacheStore values i18n))
                !! cacheKey [Locale t; Key t] = Some (Marshal t)) as Hset.
      { rewrite SetCacheStore_run, Hbs'. unfold after. cbn [fst snd].
        cbn [cacheStore with_cacheStore]. apply Hwins. }
      split; [|by apply Hlookup].
      cbn [cache.Unmarshal memory.store]. by rewrite Hset.
Qed.

(** ** Placeholders *)

(** C3, as amended.  When no probe is usable, [T] returns (formatted) the
    engine's default text, or the key as given when the engine has none, and
    hands the placeholder (the scoped key, the effective locale, the default
    text, the first backend as owner when there is one) to
    [SaveTranslation].  When some backend accepts it, the backends up to the
    first accepting one have been asked to save it, the cache holds it under
    the composite key of its locale and key, and a second call leaves the
    cache as the first call left it.  When no backend accepts it the cache is
    left as it was. *)
Theorem T_placeholder_saved locale key args i18n :
  let eff := effective_locale locale in
  let ph := placeholder i18n eff key in
  let out := T locale key args i18n in
  Forall (λ k, usable (cacheStore i18n) k = false) (probe_plan i18n eff key) →
  result out
  = T_formatted eff (if String.eqb (value i18n) "" then key else value i18n) args
  ∧ calls out
    = (CacheUnmarshal <$> probe_plan i18n eff key)
      ++ calls (SaveTranslation ph i18n)
  ∧ after out = after (SaveTranslation ph i18n)
  ∧ match first_accepting ph (Backends i18n) with
    | Some j =>
        Backends (after out)
        = (saved ph <$> take (S j) (Backends i18n)) ++ drop (S j) (Backends i18n)
        ∧ cacheStore (after out)
          = <[cacheKey [eff; scoped_key i18n key] := Marshal ph]> (cacheStore i18n)
        ∧ cacheStore (after (T locale key args (after out)))
          = cacheStore (after out)
    | None =>
        Backends (after out) = saved ph <$> Backends i18n
        ∧ cacheStore (after out) = cacheStore i18n
    end.
Proof.
  intros eff ph out Hmiss. subst out.
  pose proof (T_total_miss _ _ args _ Hmiss) as HT. fold eff ph in HT.
  assert (after (T locale key args i18n) = after (SaveTranslation ph i18n))
    as Hafter by by rewrite HT.
  split_and!; [by rewrite HT..|]. rewrite Hafter.
  pose proof (SaveTranslation_run ph i18n) as Hsave.
  pose proof (SaveTranslation_memory ph i18n) as Hcache.
  destruct (first_accepting ph (Backends i18n)) as [j|] eqn:Hfirst.
  - split_and!; [by rewrite Hsave..|].
    set (i18n' := after (SaveTranslation ph i18n)) in *.
    destruct (T_after locale key args i18n') as [->| ->]; [done|].
    assert (placeholder i18n' (effective_locale locale) key = ph) as ->.
    { subst i18n'. rewrite <-Hafter. apply T_placeholder_stable. }
    rewrite SaveTranslation_memory.
    destruct (first_accepting ph (Backends i18n')); [|done].
    rewrite Hcache. apply insert_insert_eq.
  - by rewrite Hsave.
Qed.

(** ** The composite cache key *)

(** C8.  [cacheKey] joins locale and key with "/" and escapes nothing, so
    distinct pairs can have the same cache key: ("en", "US/greeting") and
    ("en/US", "greeting") do.  Of two records with the same cache key, the
    one added last is the one a probe for the other finds. *)
Theorem cacheKey_not_injective :
  (∀ l k, cacheKey [l; k] = l +:+ "/" +:+ k)
  ∧ ("en", "US/greeting") ≠ ("en/US", "greeting")
  ∧ cacheKey ["en"; "US/greeting"] = cacheKey ["en/US"; "greeting"]
  ∧ ∀ i18n t1 t2,
      cacheKey [Locale t1; Key t1] = cacheKey [Locale t2; Key t2] →
      cache.Unmarshal
        (cacheStore (after (AddTranslation t2 (after (AddTranslation t1 i18n)))))
        (cacheKey [Locale t1; Key t1])
      = cache.Hit (Marshal t2).
Proof.
  split_and!; [done..|].
  intros i18n t1 t2 Hkey. unfold AddTranslation, cacheStore_Set, after. simpl.
  by rewrite Hkey, lookup_insert_eq.
Qed.

End MemoryFacts.

(** * The statements on concrete engines *)

Section Examples.

Import fixtures.

Example SaveTranslation_mixed :
  SaveTranslation (tr "de" "greeting" "Hallo") mixed
  = (nil,
     with_cacheStore
       (with_Backends mixed
          [vendor;
           {| rows := rows site ++ [tr "de" "greeting" "Hallo"];
              readonly := false |};
           {| rows := []; readonly := false |}])
       (<["de/greeting" := Marshal (tr "de" "greeting" "Hallo")]>
          (cacheStore mixed)),
     [BackendSave 0 (tr "de" "greeting" "Hallo");
      BackendSave 1 (tr "de" "greeting" "Hallo");
      CacheSet "de/greeting" (tr "de" "greeting" "Hallo")]).
Proof. reflexivity. Qed.

Example DeleteTranslation_mixed :
  calls (DeleteTranslation (tr "fr" "greeting" "") mixed)
  = [BackendDelete 0 (tr "fr" "greeting" "");
     BackendDelete 1 (tr "fr" "greeting" "");
     BackendDelete 2 (tr "fr" "greeting" "");
     CacheDelete "fr/greeting"]
  ∧ result (DeleteTranslation (tr "fr" "greeting" "") mixed) = nil
  ∧ cacheStore (after (DeleteTranslation (tr "fr" "greeting" "") mixed))
      !! "fr/greeting" = None.
Proof. by vm_compute. Qed.

(** The first declared backend that reports a French greeting wins:
    [site] before [vendor], at the head of the chain and behind a backend
    that reports nothing. *)
Lemma loadToCacheStore_first_declared_wins_witness :
  cache.Unmarshal (cacheStore (after (New [site; vendor]))) "fr/greeting"
  = cache.Hit {| doc_Key := "greeting"; doc_Locale := "fr"; doc_Value := "Bonjour" |}
  ∧ result (T "fr" "greeting" [] (after (New [site; vendor]))) = "Bonjour"
  ∧ cache.Unmarshal
      (cacheStore (after (New [{| rows := []; readonly := false |}; site; vendor])))
      "fr/greeting"
    = cache.Hit {| doc_Key := "greeting"; doc_Locale := "fr"; doc_Value := "Bonjour" |}
  ∧ result (T "fr" "greeting" []
              (after (New [{| rows := []; readonly := false |}; site; vendor])))
    = "Bonjour".
Proof.
  destruct (loadToCacheStore_first_declared_wins (Arg := string)
              [site; vendor] []) as (_ & _ & _ & Hhead).
  destruct (Hhead [] site [vendor] [] (tr "fr" "greeting" "Bonjour")
              [tr "en-US" "greeting" "Hello"])
    as (Hcache & Hlookup & _).
  { reflexivity. }
  { reflexivity. }
  { constructor. }
  { repeat constructor. vm_compute. discriminate. }
  destruct (loadToCacheStore_first_declared_wins (Arg := string)
              [{| rows := []; readonly := false |}; site; vendor] [])
    as (_ & _ & _ & Hinner).
  destruct (Hinner [{| rows := []; readonly := false |}] site [vendor] []
              (tr "fr" "greeting" "Bonjour") [tr "en-US" "greeting" "Hello"])
    as (Hcache' & Hlookup' & _).
  { reflexivity. }
  { reflexivity. }
  { repeat constructor. }
  { repeat constructor. vm_compute. discriminate. }
  split_and!.
  - exact Hcache.
  - apply Hlookup; vm_compute; discriminate.
  - exact Hcache'.
  - apply Hlookup'; vm_compute; discriminate.
Defined.

(** The first declared backend loses the cache entry of ("en", "US/greeting")
    to its own record of ("en/US", "greeting"): the lookup returns "B", which
    is the value neither backend has for that locale and key.  So does the
    first backend that defines ("en", "US/greeting") when a backend declared
    before it has ("en/US", "greeting").  Two backends define the greeting of
    the empty locale: the first declared has the entry, and the lookup of the
    empty locale asks for the default locale and returns the key.  The first
    declared backend has a French greeting without text: it has the entry,
    and the lookup returns the key. *)
Lemma loadToCacheStore_first_declared_wins_counterexample :
  tr "en" "US/greeting" "A" ∈ backend.LoadTranslations slashed_first
  ∧ tr "en" "US/greeting" "Z" ∈ backend.LoadTranslations slashed_second
  ∧ cacheStore (after (New [slashed_first; slashed_second]))
      !! cacheKey ["en"; "US/greeting"]
    = Some {| doc_Key := "greeting"; doc_Locale := "en/US"; doc_Value := "B" |}
  ∧ result (T "en" "US/greeting" [] (after (New [slashed_first; slashed_second])))
    = "B"
  ∧ Forall (λ t, is_entry "en" "US/greeting" t = false)
      (backend.LoadTranslations slashed_third)
  ∧ cacheStore (after (New [slashed_third; slashed_second; slashed_first]))
      !! cacheKey ["en"; "US/greeting"]
    = Some {| doc_Key := "greeting"; doc_Locale := "en/US"; doc_Value := "B" |}
  ∧ result (T "en" "US/greeting" []
              (after (New [slashed_third; slashed_second; slashed_first])))
    = "B"
  ∧ cacheStore (after (New [unset_first; unset_second])) !! cacheKey [""; "greeting"]
    = Some {| doc_Key := "greeting"; doc_Locale := ""; doc_Value := "Hi" |}
  ∧ probes (calls (T "" "greeting" [] (after (New [unset_first; unset_second]))))
    = ["en-US/greeting"; "en-US/greeting"; "en-US/greeting"]
  ∧ result (T "" "greeting" [] (after (New [unset_first; unset_second])))
    = "greeting"
  ∧ cacheStore (after (New [untranslated; vendor])) !! cacheKey ["fr"; "greeting"]
    = Some {| doc_Key := "greeting"; doc_Locale := "fr"; doc_Value := "" |}
  ∧ result (T "fr" "greeting" [] (after (New [untranslated; vendor])))
    = "greeting".
Proof.
  split_and!; first [reflexivity|repeat constructor].
Qed.

(** Canadian French falls back to Belgian French, which has no greeting, then
    to French, which has one: the default locale's "Hello" is not reached. *)
Lemma T_probe_order_witness :
  result (T "fr-CA" "greeting" [] canadian) = "Bonjour"
  ∧ probes (calls (T "fr-CA" "greeting" [] canadian))
    = ["fr-CA/greeting"; "fr-BE/greeting"; "fr/greeting"]
  ∧ cacheStore canadian !! "en-US/greeting"
    = Some {| doc_Key := "greeting"; doc_Locale := "en-US"; doc_Value := "Hello" |}.
Proof.
  destruct (T_probe_order (Arg := string) "fr-CA" "greeting" [] canadian)
    as [_ Hfallback].
  destruct (Hfallback ["fr-BE"] "fr" ["en-US"]
              {| doc_Key := "greeting"; doc_Locale := "fr"; doc_Value := "Bonjour" |})
    as [Hresult Hprobes].
  - reflexivity.
  - reflexivity.
  - repeat constructor.
  - reflexivity.
  - vm_compute. discriminate.
  - split_and!; [exact Hresult|exact Hprobes|reflexivity].
Defined.

(** French is the fallback locale configured for the empty locale and has a
    farewell: the lookup of the empty locale probes neither the empty locale
    nor French, but the default locale three times, and returns the key.  A
    lookup that finds nothing probes the default locale twice. *)
Lemma T_probe_order_counterexample :
  FallbackLocales unlocalised !! "" = Some ["fr"]
  ∧ cacheStore unlocalised !! cacheKey ["fr"; "farewell"]
    = Some {| doc_Key := "farewell"; doc_Locale := "fr"; doc_Value := "Adieu" |}
  ∧ probes (calls (T "" "farewell" [] unlocalised))
    = ["en-US/farewell"; "en-US/farewell"; "en-US/farewell"]
  ∧ result (T "" "farewell" [] unlocalised) = "farewell"
  ∧ probes (calls (T "fr-CA" "farewell" [] canadian))
    = ["fr-CA/farewell"; "fr-BE/farewell"; "fr/farewell"; "en-US/farewell";
       "en-US/farewell"]
  ∧ result (T "fr-CA" "farewell" [] canadian) = "farewell".
Proof. split_and!; reflexivity. Qed.

(** A first lookup of an unknown key on [blank]: the key comes back, the
    placeholder is saved by the backend and cached, and a second lookup leaves
    the cache as it is. *)
Lemma T_placeholder_saved_witness :
  result (T "fr" "greeting" [] blank) = "greeting"
  ∧ Backends (after (T "fr" "greeting" [] blank))
    = [{| rows := [{| Key := "greeting"; Locale := "fr"; Value := "";
                      Backend := Some 0 |}];
          readonly := false |}]
  ∧ cacheStore (after (T "fr" "greeting" [] blank))
    = {[ "fr/greeting"
         := {| doc_Key := "greeting"; doc_Locale := "fr"; doc_Value := "" |} ]}
  ∧ cacheStore (after (T "fr" "greeting" [] (after (T "fr" "greeting" [] blank))))
    = cacheStore (after (T "fr" "greeting" [] blank)).
Proof.
  pose proof (T_placeholder_saved (Arg := string) "fr" "greeting" [] blank)
    as Hsaved.
  simpl in Hsaved.
  destruct Hsaved as (Hresult & _ & _ & Hbackends & Hcache & Hagain).
  - repeat constructor.
  - split_and!; [exact Hresult|exact Hbackends|exact Hcache|exact Hagain].
Defined.

(** A read-only backend refuses the placeholder: the key comes back, and
    neither the backend nor the cache has a record of the request. *)
Lemma T_placeholder_saved_counterexample :
  result (T "fr" "greeting" [] sealed) = "greeting"
  ∧ calls (T "fr" "greeting" [] sealed)
    = [CacheUnmarshal "fr/greeting"; CacheUnmarshal "en-US/greeting";
       CacheUnmarshal "en-US/greeting";
       BackendSave 0 {| Key := "greeting"; Locale := "fr"; Value := "";
                        Backend := Some 0 |}]
  ∧ backend.LoadTranslations <$> Backends (after (T "fr" "greeting" [] sealed))
    = [[]]
  ∧ cacheStore (after (T "fr" "greeting" [] sealed)) = ∅.
Proof. split_and!; reflexivity. Qed.

(** The empty key comes back as the empty string, whether the formatter
    renders it or fails on it. *)
Lemma T_value_or_key_counterexample :
  result (T "en" "" [] bare) = ""
  ∧ result (T (formatter := failing) "en" "" [] bare) = "".
Proof. split; reflexivity. Qed.

(** The second lookup of the same unknown key on [blank]: the cached
    placeholder has an empty value, so the backend is asked to save again. *)
Lemma T_saves_on_every_miss_witness :
  calls (T "fr" "greeting" [] (after (T "fr" "greeting" [] blank)))
  = [CacheUnmarshal "fr/greeting"; CacheUnmarshal "en-US/greeting";
     CacheUnmarshal "en-US/greeting";
     BackendSave 0 {| Key := "greeting"; Locale := "fr"; Value := "";
                      Backend := Some 0 |};
     CacheSet "fr/greeting" {| Key := "greeting"; Locale := "fr"; Value := "";
                               Backend := Some 0 |}]
  ∧ backend.LoadTranslations
      <$> Backends (after (T "fr" "greeting" []
                             (after (T "fr" "greeting" [] blank))))
    = [[ {| Key := "greeting"; Locale := "fr"; Value := ""; Backend := Some 0 |};
         {| Key := "greeting"; Locale := "fr"; Value := ""; Backend := Some 0 |} ]].
Proof.
  destruct (T_saves_on_every_miss (Arg := string) "fr" "greeting" []
              (after (T "fr" "greeting" [] blank)))
    as (Hcalls & Hafter & _).
  - repeat constructor.
  - split; [exact Hcalls|]. by rewrite Hafter.
Defined.

(** No backend: nothing is saved or cached, and the key comes back. *)
Lemma T_without_backends_witness :
  SaveTranslation (tr "fr" "greeting" "Bonjour") bare
  = (errors_New "failed to save translation", bare, [])
  ∧ T "fr" "greeting" [] bare
    = ("greeting", bare,
       [CacheUnmarshal "fr/greeting"; CacheUnmarshal "en-US/greeting";
        CacheUnmarshal "en-US/greeting"]).
Proof.
  destruct (T_without_backends (Arg := string) "fr" "greeting" [] bare)
    as [Hsave Hlookup].
  - reflexivity.
  - split; [apply Hsave|]. apply Hlookup. repeat constructor.
Defined.

(** No backend and a default text: the lookup reaches the placeholder and
    returns the default text, not the key. *)
Lemma T_without_backends_counterexample :
  Backends bare_with_text = []
  ∧ Forall (λ k, usable (cacheStore bare_with_text) k = false)
      (probe_plan bare_with_text "fr" "greeting")
  ∧ T "fr" "greeting" [] bare_with_text
    = ("N/A", bare_with_text,
       [CacheUnmarshal "fr/greeting"; CacheUnmarshal "en-US/greeting";
        CacheUnmarshal "en-US/greeting"])
  ∧ result (T (formatter := failing) "fr" "greeting" [] bare_with_text) = "N/A".
Proof. split_and!; [reflexivity|repeat constructor|reflexivity..]. Qed.

End Examples.

(** * More of the engine *)

Section Strings.

Lemma cacheKey_pair (locale key : string) :
  cacheKey [locale; key] = locale +:+ "/" +:+ key.
Proof. done. Qed.

Lemma slash_free_join (l1 k1 l2 k2 : string) :
  slash_free l1 = true → slash_free l2 = true →
  l1 +:+ "/" +:+ k1 = l2 +:+ "/" +:+ k2 →
  l1 = l2 ∧ k1 = k2.
Proof.
  assert (∀ s, "" +:+ s = s) as Hnil by done.
  assert (∀ c s s', String c s +:+ s' = String c (s +:+ s')) as Hcons by done.
  revert l2. induction l1 as [|c1 l1 IH]; intros [|c2 l2] H1 H2 Heq;
    cbn in H1, H2; rewrite ?Hnil, ?Hcons, ?Hnil in Heq.
  - by injection Heq as ->.
  - apply andb_prop in H2 as [Hc _]. injection Heq as <- _. done.
  - apply andb_prop in H1 as [Hc _]. injection Heq as -> _. done.
  - apply andb_prop in H1 as [_ H1]. apply andb_prop in H2 as [_ H2].
    injection Heq as <- Hrest.
    by destruct (IH l2 H1 H2 Hrest) as [-> ->].
Qed.

Lemma list_ascii_of_string_append (s1 s2 : string) :
  String.list_ascii_of_string (s1 +:+ s2)
  = String.list_ascii_of_string s1 ++ String.list_ascii_of_string s2.
Proof.
  induction s1 as [|c s1 IH]; [done|].
  change (String c s1 +:+ s2) with (String c (s1 +:+ s2)).
  cbn [String.list_ascii_of_string]. by rewrite IH.
Qed.

(** The key a probe of [T] uses is never the key a scoped placeholder is
    stored under. *)
Lemma cacheKey_scoped_apart (l L scope key : string) :
  cacheKey [l; key] ≠ cacheKey [L; scope +:+ "." +:+ key].
Proof.
  rewrite !cacheKey_pair. intros Heq.
  apply (f_equal String.list_ascii_of_string) in Heq.
  rewrite !list_ascii_of_string_append in Heq.
  cbn [String.list_ascii_of_string] in Heq.
  rewrite !app_assoc in Heq. apply app_inv_tail in Heq.
  apply app_inj_tail in Heq as [_ [=]].
Qed.

(** X1.  On locales without "/" the composite cache key tells pairs apart:
    two pairs with the same cache key have the same locale and the same
    key. *)
Theorem cacheKey_injective_slash_free (l1 k1 l2 k2 : string) :
  slash_free l1 = true → slash_free l2 = true →
  cacheKey [l1; k1] = cacheKey [l2; k2] →
  l1 = l2 ∧ k1 = k2.
Proof. rewrite !cacheKey_pair. apply slash_free_join. Qed.

End Strings.

Section LoadFacts.

Context {C B : Type}.
Context {store_impl : cache.CacheStoreInterface C}
        {backend_impl : backend.Interface B}.

Implicit Types (i18n : I18n C B) (t : Translation) (bs : list B).
Implicit Types (P : Translation → bool) (ts : list Translation).

Lemma last_matching_app P ts ts' :
  last_matching P (ts ++ ts')
  = match last_matching P ts' with
    | Some t => Some t
    | None => last_matching P ts
    end.
Proof.
  induction ts as [|t ts IH]; simpl.
  - by destruct (last_matching P ts').
  - rewrite IH. by destruct (last_matching P ts').
Qed.

Lemma last_matching_ext P P' ts :
  Forall (λ t, P t = P' t) ts → last_matching P ts = last_matching P' ts.
Proof.
  induction 1 as [|t ts Ht _ IH]; simpl; [done|]. by rewrite IH, Ht.
Qed.

Lemma last_matching_Some P ts t :
  last_matching P ts = Some t → t ∈ ts ∧ P t = true.
Proof.
  induction ts as [|t' ts IH]; simpl; [done|].
  destruct (last_matching P ts) as [t''|].
  - intros [= ->]. destruct IH as [Hin HP]; [done|]. split; [by right|done].
  - destruct (P t') eqn:HP; [|done]. intros [= ->]. split; [by left|done].
Qed.

Lemma first_declared_concat P bs :
  last_matching P (concat (backend.LoadTranslations <$> reverse bs))
  = first_declared P bs.
Proof.
  induction bs as [|b bs IH]; simpl; [done|].
  rewrite reverse_cons, fmap_app, concat_app, last_matching_app. simpl.
  by rewrite app_nil_r, IH.
Qed.

Lemma first_declared_ext P P' bs :
  Forall (λ b, Forall (λ t, P t = P' t) (backend.LoadTranslations b)) bs →
  first_declared P bs = first_declared P' bs.
Proof.
  induction 1 as [|b bs Hb _ IH]; simpl; [done|].
  by rewrite (last_matching_ext P P' _ Hb), IH.
Qed.

Lemma first_declared_Some P bs t :
  first_declared P bs = Some t →
  P t = true ∧ ∃ b, b ∈ bs ∧ t ∈ backend.LoadTranslations b.
Proof.
  induction bs as [|b bs IH]; simpl; [done|].
  destruct (last_matching P (backend.LoadTranslations b)) as [t'|] eqn:Hlast.
  - intros [= ->]. apply last_matching_Some in Hlast as [Hin HP].
    split; [done|]. exists b. split; [by left|done].
  - intros (HP & b' & Hb' & Hin)%IH. split; [done|].
    exists b'. split; [by right|done].
Qed.

(** *** [LoadTranslations] *)

Lemma LoadTranslations_record_entry
    (translations : gmap string (gmap string Translation)) t locale key :
  entry (LoadTranslations_record translations t) locale key
  = if is_entry locale key t then Some t else entry translations locale key.
Proof.
  unfold LoadTranslations_record, entry, is_entry.
  destruct (String.eqb_spec (Locale t) locale) as [<-|Hlocale]; simpl.
  - destruct (translations !! Locale t) as [keys|] eqn:Hkeys.
    + rewrite Hkeys, lookup_insert_eq.
      destruct (String.eqb_spec (Key t) key) as [<-|Hkey].
      * by rewrite lookup_insert_eq.
      * by rewrite lookup_insert_ne.
    + rewrite !lookup_insert_eq.
      destruct (String.eqb_spec (Key t) key) as [<-|Hkey].
      * by rewrite lookup_insert_eq.
      * by rewrite lookup_insert_ne, lookup_empty.
  - destruct (translations !! Locale t) as [keys|] eqn:Hkeys.
    + rewrite Hkeys. by rewrite lookup_insert_ne.
    + rewrite lookup_insert_eq. by rewrite !lookup_insert_ne.
Qed.

Lemma LoadTranslations_records_entry ts :
  ∀ (translations : gmap string (gmap string Translation)) locale key,
  entry (LoadTranslations_records translations ts) locale key
  = match last_matching (is_entry locale key) ts with
    | Some t => Some t
    | None => entry translations locale key
    end.
Proof.
  induction ts as [|t ts IH]; intros translations locale key; simpl; [done|].
  rewrite IH, LoadTranslations_record_entry.
  destruct (last_matching (is_entry locale key) ts); [done|].
  by destruct (is_entry locale key t).
Qed.

Lemma LoadTranslations_records_app ts ts' :
  ∀ translations : gmap string (gmap string Translation),
  LoadTranslations_records translations (ts ++ ts')
  = LoadTranslations_records (LoadTranslations_records translations ts) ts'.
Proof. induction ts as [|t ts IH]; intros translations; simpl; [done|]. apply IH. Qed.

Lemma LoadTranslations_from_run n :
  ∀ (translations : gmap string (gmap string Translation)) i18n,
  n ≤ length (Backends i18n) →
  LoadTranslations_from n translations i18n =
    (LoadTranslations_records translations
       (concat (backend.LoadTranslations <$> reverse (take n (Backends i18n)))),
     i18n, BackendLoad <$> reverse (seq 0 n)).
Proof.
  induction n as [|n IH]; intros translations i18n Hn; [done|].
  destruct (lookup_lt_is_Some_2 (Backends i18n) n) as [b Hb]; [lia|].
  rewrite seq_S, reverse_snoc, (take_S_r _ _ b), reverse_snoc by done.
  cbn [LoadTranslations_from]. unfold bind.
  rewrite (backend_LoadTranslations_run n b) by done.
  rewrite IH by lia. simpl. by rewrite LoadTranslations_records_app.
Qed.

(** X2.  [LoadTranslations] returns, for every locale and key, the record of
    the first declared backend that reports one of that locale and key (the
    last such record of that backend), and nothing when no backend reports
    one; it asks every backend for its records, the last declared first, and
    leaves the engine, its cache store included, as it was. *)
Theorem LoadTranslations_first_declared i18n locale key :
  entry (result (LoadTranslations i18n)) locale key
  = first_declared (is_entry locale key) (Backends i18n)
  ∧ after (LoadTranslations i18n) = i18n
  ∧ calls (LoadTranslations i18n)
    = BackendLoad <$> reverse (seq 0 (length (Backends i18n))).
Proof.
  unfold LoadTranslations, bind, self.
  rewrite LoadTranslations_from_run by done. unfold result, after, calls.
  cbn [fst snd]. rewrite firstn_all.
  split_and!; [|done..].
  rewrite LoadTranslations_records_entry, first_declared_concat.
  by destruct (first_declared _ _).
Qed.

End LoadFacts.

Section LookupFacts.

Context {C B Arg : Type}.
Context {package : Package}
        {store_impl : cache.CacheStoreInterface C}
        {backend_impl : backend.Interface B}
        {formatter : cldr.Formatter Arg}.

Implicit Types (i18n : I18n C B) (t : Translation).

Lemma usable_in_plan i18n locale key :
  Exists (λ k, usable (cacheStore i18n) k = true) (probe_plan i18n locale key) →
  ∃ d, find_usable (cacheStore i18n)
         (cacheKey [locale; key]
          :: ((λ l, cacheKey [l; key]) <$> fallback_chain i18n locale))
       = Some d.
Proof.
  intros Hsome.
  destruct (find_usable _ _) as [d|] eqn:Hfind; [by exists d|].
  apply find_usable_None in Hfind.
  assert (Forall (λ k, usable (cacheStore i18n) k = false)
            (probe_plan i18n locale key)) as Hnone.
  { rewrite probe_plan_split. apply Forall_app. split; [done|].
    apply Forall_singleton.
    apply Forall_cons in Hfind as [_ Hchain].
    rewrite Forall_fmap in Hchain. unfold fallback_chain in Hchain.
    apply Forall_app in Hchain as [_ Hdefault].
    by inversion Hdefault. }
  apply Exists_exists in Hsome as (k & Hk & Husable).
  rewrite Forall_forall in Hnone. specialize (Hnone k Hk). congruence.
Qed.

(** X3.  A lookup that finds a usable value is read-only: it leaves the
    engine exactly as it was, hands no record to a backend or to the cache
    store, and its calls are its probes; so the same lookup made again gives
    the same outcome. *)
Theorem T_hit_is_read_only locale key args i18n :
  Exists (λ k, usable (cacheStore i18n) k = true)
    (probe_plan i18n (effective_locale locale) key) →
  after (T locale key args i18n) = i18n
  ∧ written (calls (T locale key args i18n)) = []
  ∧ calls (T locale key args i18n)
    = CacheUnmarshal
        <$> upto_usable (cacheStore i18n)
              (probe_plan i18n (effective_locale locale) key)
  ∧ T locale key args (after (T locale key args i18n))
    = T locale key args i18n.
Proof.
  intros [d Hfind]%usable_in_plan.
  assert (after (T locale key args i18n) = i18n) as Hafter.
  { rewrite T_run. unfold after at 1. cbn [fst snd].
    by rewrite T_translation_run, Hfind. }
  assert (calls (T locale key args i18n)
          = CacheUnmarshal
              <$> upto_usable (cacheStore i18n)
                    (probe_plan i18n (effective_locale locale) key)) as Hcalls.
  { rewrite T_run. unfold calls at 1. cbn [fst snd].
    by rewrite T_translation_run, Hfind. }
  split_and!; [done| |done|by rewrite Hafter].
  rewrite Hcalls. apply written_CacheUnmarshal.
Qed.

End LookupFacts.

Section CacheFacts.

Context {B Arg : Type}.
Context {package : Package}
        {backend_impl : backend.Interface B} {formatter : cldr.Formatter Arg}.

Implicit Types (i18n : I18n (gmap string Document) B) (t : Translation).
Implicit Types (values : gmap string Document) (bs : list B).

Lemma store_all_entry ts : ∀ values key,
  store_all values ts !! key
  = match last_matching (stored_under key) ts with
    | Some t => Some (Marshal t)
    | None => values !! key
    end.
Proof.
  induction ts as [|t ts IH]; intros values key; [done|].
  rewrite store_all_cons, IH. simpl.
  destruct (last_matching (stored_under key) ts); [done|].
  unfold stored_under.
  destruct (String.eqb_spec (cacheKey [Locale t; Key t]) key) as [<-|Hne].
  - by rewrite lookup_insert_eq.
  - by rewrite lookup_insert_ne.
Qed.

Lemma New_run bs :
  New bs =
    (tt,
     {| scope := ""; value := ""; Backends := bs; FallbackLocales := ∅;
        fallbackLocales := [];
        cacheStore :=
          store_all ∅ (concat (backend.LoadTranslations <$> reverse bs)) |},
     concat (reverse (imap load_calls bs))).
Proof. unfold New. by rewrite loadToCacheStore_run. Qed.

Lemma SetCacheStore_entry values i18n key :
  cacheStore (after (SetCacheStore values i18n)) !! key
  = match first_declared (stored_under key) (Backends i18n) with
    | Some t => Some (Marshal t)
    | None => values !! key
    end.
Proof.
  rewrite SetCacheStore_run. unfold after. cbn [fst snd cacheStore with_cacheStore].
  by rewrite store_all_entry, first_declared_concat.
Qed.

Lemma New_entry bs key :
  cacheStore (after (New bs)) !! key
  = Marshal <$> first_declared (stored_under key) bs.
Proof.
  rewrite New_run. unfold after. cbn [fst snd cacheStore].
  rewrite store_all_entry, first_declared_concat.
  by destruct (first_declared _ _).
Qed.

Lemma stored_under_is_entry locale key t :
  slash_free locale = true → slash_free (Locale t) = true →
  stored_under (cacheKey [locale; key]) t = is_entry locale key t.
Proof.
  intros Hlocale Ht. unfold stored_under, is_entry.
  destruct (String.eqb_spec (cacheKey [Locale t; Key t]) (cacheKey [locale; key]))
    as [Heq|Hne].
  - rewrite !cacheKey_pair in Heq.
    destruct (slash_free_join _ _ _ _ Ht Hlocale Heq) as [Hl Hk].
    by rewrite Hl, Hk, !String.eqb_refl.
  - destruct (String.eqb_spec (Locale t) locale) as [Hl|]; [|done].
    destruct (String.eqb_spec (Key t) key) as [Hk|]; [|done].
    by rewrite Hl, Hk in Hne.
Qed.

Lemma New_entry_slash_free bs locale key :
  Forall (λ b, Forall (λ t, slash_free (Locale t) = true)
                 (backend.LoadTranslations b)) bs →
  slash_free locale = true →
  cacheStore (after (New bs)) !! cacheKey [locale; key]
  = Marshal <$> first_declared (is_entry locale key) bs.
Proof.
  intros Hbs Hlocale. rewrite New_entry. f_equal.
  apply first_declared_ext. eapply Forall_impl; [exact Hbs|].
  intros b Hb. eapply Forall_impl; [exact Hb|].
  intros t Ht. by apply stored_under_is_entry.
Qed.

Lemma LoadTranslations_entry i18n locale key :
  entry (result (LoadTranslations i18n)) locale key
  = first_declared (is_entry locale key) (Backends i18n).
Proof.
  unfold LoadTranslations, bind, self.
  rewrite LoadTranslations_from_run by done. unfold result.
  cbn [fst snd]. rewrite firstn_all.
  rewrite LoadTranslations_records_entry, first_declared_concat.
  by destruct (first_declared _ _).
Qed.

(** ** The full load, entry by entry *)

(** X4.  After a full load the cache entry under a composite key is the last
    record stored under that key that the first declared backend reporting
    one reports; a key no backend reports keeps what the store held, which
    is nothing at construction.  The load leaves the chain as it was. *)
Theorem loadToCacheStore_entry values i18n bs key :
  cacheStore (after (SetCacheStore values i18n)) !! key
  = match first_declared (stored_under key) (Backends i18n) with
    | Some t => Some (Marshal t)
    | None => values !! key
    end
  ∧ Backends (after (SetCacheStore values i18n)) = Backends i18n
  ∧ cacheStore (after (New bs)) !! key
    = Marshal <$> first_declared (stored_under key) bs
  ∧ Backends (after (New bs)) = bs.
Proof.
  split_and!.
  - apply SetCacheStore_entry.
  - by rewrite SetCacheStore_run.
  - apply New_entry.
  - by rewrite New_run.
Qed.

(** X5.  When no locale the backends report has a "/" in it, the engine built
    over them caches, for every such locale and every key, the record of the
    first declared backend that reports that locale and key (its last such
    record), and nothing when no backend reports it. *)
Theorem New_first_declared_wins bs locale key :
  Forall (λ b, Forall (λ t, slash_free (Locale t) = true)
                 (backend.LoadTranslations b)) bs →
  slash_free locale = true →
  cacheStore (after (New bs)) !! cacheKey [locale; key]
  = Marshal <$> first_declared (is_entry locale key) bs.
Proof. apply New_entry_slash_free. Qed.

(** X6.  When no locale the backends report has a "/" in it, the cache of the
    engine built over them agrees with what its [LoadTranslations] returns:
    the entry of a locale and key is the document of the record
    [LoadTranslations] has for them, and a lookup of a non-empty locale and a
    key returns that record's value, formatted, when it is not empty. *)
Theorem LoadTranslations_agrees_with_cache bs locale key (args : list Arg) :
  Forall (λ b, Forall (λ t, slash_free (Locale t) = true)
                 (backend.LoadTranslations b)) bs →
  slash_free locale = true →
  cacheStore (after (New bs)) !! cacheKey [locale; key]
  = Marshal <$> entry (result (LoadTranslations (after (New bs)))) locale key
  ∧ ∀ t, entry (result (LoadTranslations (after (New bs)))) locale key = Some t →
         locale ≠ "" → Value t ≠ "" →
         result (T locale key args (after (New bs)))
         = T_formatted locale (Value t) args.
Proof.
  intros Hbs Hlocale.
  assert (cacheStore (after (New bs)) !! cacheKey [locale; key]
          = Marshal <$> entry (result (LoadTranslations (after (New bs))))
                          locale key) as Hcache.
  { rewrite LoadTranslations_entry, New_entry_slash_free by done.
    by rewrite New_run. }
  split; [done|]. intros t Ht Hne Hvalue.
  assert (effective_locale locale = locale) as Heff.
  { unfold effective_locale. apply String.eqb_neq in Hne. by rewrite Hne. }
  rewrite (T_first_probe_hit _ _ _ _ (Marshal t)); rewrite ?Heff; [done| |done].
  cbn [cache.Unmarshal memory.store]. by rewrite Hcache, Ht.
Qed.

(** X7.  Replacing the cache store by a fresh one rebuilds the cache from the
    backends alone: whatever the old store held, the new cache is the cache
    of an engine newly built over the same chain; done right after
    construction it leaves the engine as it was. *)
Theorem SetCacheStore_rebuilds i18n bs :
  cacheStore (after (SetCacheStore memory.New i18n))
  = cacheStore (after (New (Backends i18n)))
  ∧ Backends (after (SetCacheStore memory.New i18n)) = Backends i18n
  ∧ after (SetCacheStore memory.New (after (New bs))) = after (New bs).
Proof.
  rewrite !SetCacheStore_run, !New_run. done.
Qed.

(** ** Adding, saving and deleting, then looking up *)

(** X8.  A record added to the cache, of a non-empty locale and with a
    non-empty value, is what the next lookup of its locale and key returns,
    formatted, with a single probe and without any other call; adding calls
    no backend. *)
Theorem AddTranslation_then_T t (args : list Arg) i18n :
  Locale t ≠ "" → Value t ≠ "" →
  AddTranslation t i18n
  = (nil,
     with_cacheStore i18n
       (<[cacheKey [Locale t; Key t] := Marshal t]> (cacheStore i18n)),
     [CacheSet (cacheKey [Locale t; Key t]) t])
  ∧ T (Locale t) (Key t) args (after (AddTranslation t i18n))
    = (T_formatted (Locale t) (Value t) args, after (AddTranslation t i18n),
       [CacheUnmarshal (cacheKey [Locale t; Key t])]).
Proof.
  intros Hlocale Hvalue. split; [done|].
  assert (effective_locale (Locale t) = Locale t) as Heff.
  { unfold effective_locale. apply String.eqb_neq in Hlocale. by rewrite Hlocale. }
  rewrite (T_first_probe_hit _ _ _ _ (Marshal t)); rewrite ?Heff; [done| |done].
  unfold AddTranslation, cacheStore_Set, after. simpl.
  by rewrite lookup_insert_eq.
Qed.

(** X9.  A record that some backend of the chain accepts, of a non-empty
    locale and with a non-empty value, is what a lookup of its locale and key
    returns right after [SaveTranslation], formatted. *)
Theorem SaveTranslation_then_T t (args : list Arg) i18n j :
  first_accepting t (Backends i18n) = Some j →
  Locale t ≠ "" → Value t ≠ "" →
  result (SaveTranslation t i18n) = nil
  ∧ T (Locale t) (Key t) args (after (SaveTranslation t i18n))
    = (T_formatted (Locale t) (Value t) args, after (SaveTranslation t i18n),
       [CacheUnmarshal (cacheKey [Locale t; Key t])]).
Proof.
  intros Hfirst Hlocale Hvalue.
  split; [by rewrite SaveTranslation_run, Hfirst|].
  assert (effective_locale (Locale t) = Locale t) as Heff.
  { unfold effective_locale. apply String.eqb_neq in Hlocale. by rewrite Hlocale. }
  rewrite (T_first_probe_hit _ _ _ _ (Marshal t)); rewrite ?Heff; [done| |done].
  cbn [cache.Unmarshal memory.store].
  by rewrite SaveTranslation_memory, Hfirst, lookup_insert_eq.
Qed.

(** X10.  Adding a record under a key the cache has no entry for and then
    deleting it leaves the cache as it was before, whatever the backends
    answer to the delete; the delete returns nil. *)
Theorem AddTranslation_then_DeleteTranslation t i18n :
  cacheStore i18n !! cacheKey [Locale t; Key t] = None →
  cacheStore (after (DeleteTranslation t (after (AddTranslation t i18n))))
  = cacheStore i18n
  ∧ result (DeleteTranslation t (after (AddTranslation t i18n))) = nil.
Proof.
  intros Hfree. rewrite DeleteTranslation_run.
  unfold AddTranslation, cacheStore_Set, result, after. simpl.
  by rewrite delete_insert_id.
Qed.

(** X11.  After [DeleteTranslation] of a record of a non-empty locale, a
    probe for its locale and key finds nothing, every other entry of the
    cache is as before, and a lookup of that locale and key goes on past its
    first probe to the fallback locales. *)
Theorem DeleteTranslation_then_T t (args : list Arg) i18n :
  Locale t ≠ "" →
  cache.Unmarshal (cacheStore (after (DeleteTranslation t i18n)))
    (cacheKey [Locale t; Key t])
  = cache.Miss "not found"
  ∧ (∀ key, key ≠ cacheKey [Locale t; Key t] →
            cacheStore (after (DeleteTranslation t i18n)) !! key
            = cacheStore i18n !! key)
  ∧ probes (calls (T (Locale t) (Key t) args (after (DeleteTranslation t i18n))))
    = cacheKey [Locale t; Key t]
      :: upto_usable (cacheStore (after (DeleteTranslation t i18n)))
           (((λ l, cacheKey [l; Key t])
               <$> fallback_chain (after (DeleteTranslation t i18n)) (Locale t))
            ++ [cacheKey [Default; Key t]]).
Proof.
  intros Hlocale.
  assert (effective_locale (Locale t) = Locale t) as Heff.
  { unfold effective_locale. apply String.eqb_neq in Hlocale. by rewrite Hlocale. }
  destruct (DeleteTranslation_memory t i18n) as [_ Hcache].
  assert (cache.Unmarshal (cacheStore (after (DeleteTranslation t i18n)))
            (cacheKey [Locale t; Key t]) = cache.Miss "not found") as Hmiss.
  { cbn [cache.Unmarshal memory.store]. by rewrite Hcache, lookup_delete_eq. }
  split_and!; [done| |].
  - intros key Hkey. rewrite Hcache. by apply lookup_delete_ne.
  - rewrite T_probes, Heff. unfold probe_plan.
    change (upto_usable ?c (?k :: ?rest))
      with (if usable c k then [k] else k :: upto_usable c rest).
    unfold usable at 1. by rewrite Hmiss.
Qed.

(** ** What a lookup leaves untouched *)

(** X12.  A lookup changes at most one entry of the cache, the one under the
    composite key of the effective locale and the scoped key, and that entry
    only to the placeholder; it removes nothing, keeps the number of
    backends and keeps the engine's scope, default text and fallback
    locales. *)
Theorem T_cache_frame locale key (args : list Arg) i18n :
  (∀ k, k ≠ cacheKey [effective_locale locale; scoped_key i18n key] →
        cacheStore (after (T locale key args i18n)) !! k = cacheStore i18n !! k)
  ∧ (cacheStore (after (T locale key args i18n))
       !! cacheKey [effective_locale locale; scoped_key i18n key]
     = cacheStore i18n !! cacheKey [effective_locale locale; scoped_key i18n key]
     ∨ cacheStore (after (T locale key args i18n))
         !! cacheKey [effective_locale locale; scoped_key i18n key]
       = Some (Marshal (placeholder i18n (effective_locale locale) key)))
  ∧ length (Backends (after (T locale key args i18n))) = length (Backends i18n)
  ∧ scope (after (T locale key args i18n)) = scope i18n
  ∧ value (after (T locale key args i18n)) = value i18n
  ∧ FallbackLocales (after (T locale key args i18n)) = FallbackLocales i18n
  ∧ fallbackLocales (after (T locale key args i18n)) = fallbackLocales i18n.
Proof.
  destruct (T_after locale key args i18n) as [->| ->].
  { split_and!; try done. by left. }
  set (ph := placeholder i18n (effective_locale locale) key).
  destruct (SaveTranslation_settings ph i18n) as (? & ? & ? & ?).
  rewrite SaveTranslation_memory, SaveTranslation_length.
  split_and!; try done.
  - intros k Hk. destruct (first_accepting ph (Backends i18n)); [|done].
    by apply lookup_insert_ne.
  - destruct (first_accepting ph (Backends i18n)); [|by left].
    right. apply lookup_insert_eq.
Qed.

(** X13.  With a scope, a lookup never finds the placeholder it cached: the
    placeholder is stored under the scoped key and the probes use the key as
    given, so when no probe was usable none is usable afterwards either, and
    the same lookup made again runs [SaveTranslation] on the placeholder
    again, whatever the default text. *)
Theorem T_scoped_placeholder_is_never_found locale key (args : list Arg) i18n :
  scope i18n ≠ "" →
  Forall (λ k, usable (cacheStore i18n) k = false)
    (probe_plan i18n (effective_locale locale) key) →
  Forall (λ k, usable (cacheStore (after (T locale key args i18n))) k = false)
    (probe_plan (after (T locale key args i18n)) (effective_locale locale) key)
  ∧ calls (T locale key args (after (T locale key args i18n)))
    = (CacheUnmarshal <$> probe_plan i18n (effective_locale locale) key)
      ++ calls (SaveTranslation
                  (placeholder i18n (effective_locale locale) key)
                  (after (T locale key args i18n))).
Proof.
  intros Hscope Hmiss.
  assert (after (T locale key args i18n)
          = after (SaveTranslation
                     (placeholder i18n (effective_locale locale) key) i18n))
    as Hafter by by rewrite (T_total_miss _ _ _ _ Hmiss).
  assert (probe_plan (after (T locale key args i18n)) (effective_locale locale) key
          = probe_plan i18n (effective_locale locale) key) as Hplan.
  { rewrite Hafter. apply SaveTranslation_probe_plan. }
  assert (Forall (λ k, usable (cacheStore (after (T locale key args i18n))) k = false)
            (probe_plan (after (T locale key args i18n))
               (effective_locale locale) key)) as Hstays.
  { rewrite Hplan, Hafter, SaveTranslation_memory.
    destruct (first_accepting _ (Backends i18n)); [|done].
    assert (scoped_key i18n key = scope i18n +:+ "." +:+ key) as Hkey.
    { unfold scoped_key. apply String.eqb_neq in Hscope. by rewrite Hscope. }
    rewrite probe_plan_split in *.
    assert (∀ ks,
      Forall (λ k, ∃ l, k = cacheKey [l; key]) ks →
      Forall (λ k, usable (cacheStore i18n) k = false) ks →
      Forall (λ k,
        usable (<[cacheKey [Locale (placeholder i18n (effective_locale locale) key);
                            Key (placeholder i18n (effective_locale locale) key)]
                  := Marshal (placeholder i18n (effective_locale locale) key)]>
                  (cacheStore i18n)) k = false) ks) as Hframe.
    { intros ks Hshape Hks. induction Hks as [|k ks Hk _ IH]; [done|].
      apply Forall_cons in Hshape as [[l ->] Hshape].
      constructor; [|by apply IH].
      unfold usable in *. cbn [cache.Unmarshal memory.store] in *.
      rewrite lookup_insert_ne; [done|].
      cbn [Locale Key placeholder]. rewrite Hkey.
      intros Heq. by apply (cacheKey_scoped_apart l (effective_locale locale)
                              (scope i18n) key). }
    apply Hframe; [|done].
    apply Forall_app. split; [constructor|].
    - by eexists.
    - apply Forall_fmap, Forall_forall. intros l _. by eexists.
    - apply Forall_singleton. by eexists. }
  split; [done|].
  rewrite (T_total_miss _ _ _ _ Hstays). unfold calls at 1. cbn [snd].
  by rewrite T_placeholder_stable, Hplan.
Qed.

End CacheFacts.

Section AssetsFacts.

Context {files : utils.Files}.

Lemma append_assoc (s1 s2 s3 : string) :
  (s1 +:+ s2) +:+ s3 = s1 +:+ (s2 +:+ s3).
Proof.
  induction s1 as [|c s1 IH]; [done|].
  change ((String c s1 +:+ s2) +:+ s3) with (String c ((s1 +:+ s2) +:+ s3)).
  by rewrite IH.
Qed.

Lemma RenderInlineEditAssets_gopath_run jq ext gopath :
  (RenderInlineEditAssets_gopath jq ext gopath).2 = negb (complete ext gopath)
  ∧ (complete ext gopath = true →
     (RenderInlineEditAssets_gopath jq ext gopath).1
     = (if jq then jquery_tag else "") +:+ assets ext gopath).
Proof.
  unfold RenderInlineEditAssets_gopath, complete, assets, readable, file_content.
  destruct ext;
    repeat match goal with
      | |- context [utils.ReadFile ?p] =>
          destruct (utils.ReadFile p) as [? [?|]]
      end; simpl; (split; [done|]); try done; intros _;
    by rewrite ?append_assoc.
Qed.

Lemma RenderInlineEditAssets_range_first jq ext pre gopath post :
  Forall (λ g, complete ext g = false) pre →
  complete ext gopath = true →
  RenderInlineEditAssets_range (pre ++ gopath :: post) jq ext
  = ((if jq then jquery_tag else "") +:+ assets ext gopath, nil).
Proof.
  intros Hpre Hgopath. induction Hpre as [|g pre Hg _ IH]; simpl.
  - destruct (RenderInlineEditAssets_gopath_run jq ext gopath) as [Herr Hcontent].
    destruct (RenderInlineEditAssets_gopath jq ext gopath) as [content hasError].
    simpl in *. rewrite Herr, Hgopath. simpl. by rewrite Hcontent.
  - destruct (RenderInlineEditAssets_gopath_run jq ext g) as [Herr _].
    destruct (RenderInlineEditAssets_gopath jq ext g) as [content hasError].
    simpl in *. by rewrite Herr, Hg.
Qed.

Lemma RenderInlineEditAssets_range_none jq ext gopaths :
  Forall (λ g, complete ext g = false) gopaths →
  RenderInlineEditAssets_range gopaths jq ext
  = ("", errors_New "templates not found").
Proof.
  induction 1 as [|g gopaths Hg _ IH]; simpl; [done|].
  destruct (RenderInlineEditAssets_gopath_run jq ext g) as [Herr _].
  destruct (RenderInlineEditAssets_gopath jq ext g) as [content hasError].
  simpl in *. by rewrite Herr, Hg.
Qed.

Lemma complete_split ext gopaths :
  Forall (λ g, complete ext g = false) gopaths
  ∨ ∃ pre gopath post,
      gopaths = pre ++ gopath :: post
      ∧ Forall (λ g, complete ext g = false) pre
      ∧ complete ext gopath = true.
Proof.
  induction gopaths as [|g gopaths IH]; [by left|].
  destruct (complete ext g) eqn:Hg.
  - right. by exists [], g, gopaths.
  - destruct IH as [Hnone|(pre & gopath & post & -> & Hpre & Hgopath)].
    + left. by constructor.
    + right. exists (g :: pre), gopath, post. split_and!; [done| |done].
      by constructor.
Qed.

(** X14.  [RenderInlineEditAssets] returns the assets of the first directory
    of the path list under which every file it needs is readable, put
    together from that directory alone: what was read under an earlier,
    incomplete directory is left out. *)
Theorem RenderInlineEditAssets_first_complete jq ext pre gopath post :
  utils.GOPATH = pre ++ gopath :: post →
  Forall (λ g, complete ext g = false) pre →
  complete ext gopath = true →
  RenderInlineEditAssets jq ext
  = ((if jq then jquery_tag else "") +:+ assets ext gopath, nil).
Proof.
  intros Hpaths Hpre Hgopath. unfold RenderInlineEditAssets.
  rewrite Hpaths. by apply RenderInlineEditAssets_range_first.
Qed.

(** X15.  [RenderInlineEditAssets] returns nil exactly when some directory
    of the path list has every file it needs; otherwise it returns the empty
    content with the error "templates not found", as it does for an empty
    path list. *)
Theorem RenderInlineEditAssets_fails_iff jq ext :
  ((RenderInlineEditAssets jq ext).2 = nil
   ↔ Exists (λ g, complete ext g = true) utils.GOPATH)
  ∧ ((RenderInlineEditAssets jq ext).2 ≠ nil →
     RenderInlineEditAssets jq ext = ("", errors_New "templates not found")).
Proof.
  unfold RenderInlineEditAssets.
  destruct (complete_split ext utils.GOPATH)
    as [Hnone|(pre & gopath & post & -> & Hpre & Hgopath)].
  - rewrite (RenderInlineEditAssets_range_none _ _ _ Hnone). simpl.
    split; [|done]. split; [done|].
    intros (g & Hg & Hcomplete)%Exists_exists.
    rewrite Forall_forall in Hnone. specialize (Hnone g Hg). congruence.
  - rewrite (RenderInlineEditAssets_range_first _ _ _ _ _ Hpre Hgopath). simpl.
    split; [|done]. split; [|done]. intros _.
    apply Exists_app. right. by left.
Qed.

(** X16.  Asking for jQuery changes neither whether
    [RenderInlineEditAssets] succeeds nor which directory it takes the files
    from: on success the content is the script tag of jQuery followed by the
    content returned without it. *)
Theorem RenderInlineEditAssets_jquery_prefix ext :
  (RenderInlineEditAssets true ext).2 = (RenderInlineEditAssets false ext).2
  ∧ ((RenderInlineEditAssets false ext).2 = nil →
     (RenderInlineEditAssets true ext).1
     = jquery_tag +:+ (RenderInlineEditAssets false ext).1).
Proof.
  unfold RenderInlineEditAssets.
  destruct (complete_split ext utils.GOPATH)
    as [Hnone|(pre & gopath & post & -> & Hpre & Hgopath)].
  - by rewrite !(RenderInlineEditAssets_range_none _ _ _ Hnone).
  - by rewrite !(RenderInlineEditAssets_range_first _ _ _ _ _ Hpre Hgopath).
Qed.

Lemma complete_without_libs gopath :
  complete true gopath = true → complete false gopath = true.
Proof. unfold complete. by intros [_ ?]%andb_prop. Qed.

(** X17.  When [RenderInlineEditAssets] succeeds with the extended asset
    library it also succeeds without it, since it then needs fewer files of
    a directory. *)
Theorem RenderInlineEditAssets_without_libs jq :
  (RenderInlineEditAssets jq true).2 = nil →
  (RenderInlineEditAssets jq false).2 = nil.
Proof.
  unfold RenderInlineEditAssets. intros Hwith.
  destruct (complete_split true utils.GOPATH)
    as [Hnone|(pre & gopath & post & Hpaths & _ & Hgopath)].
  { by rewrite (RenderInlineEditAssets_range_none _ _ _ Hnone) in Hwith. }
  destruct (complete_split false utils.GOPATH)
    as [Hnone|(pre' & gopath' & post' & -> & Hpre' & Hgopath')].
  - rewrite Forall_forall in Hnone.
    specialize (Hnone gopath). rewrite Hpaths in Hnone.
    rewrite (complete_without_libs _ Hgopath) in Hnone.
    discriminate Hnone. apply elem_of_app. right. by left.
  - by rewrite (RenderInlineEditAssets_range_first _ _ _ _ _ Hpre' Hgopath').
Qed.

End AssetsFacts.

Section RequestFacts.

Context {C B Arg Ctx : Type}.
Context {package : Package}
        {store_impl : cache.CacheStoreInterface C}
        {backend_impl : backend.Interface B}
        {formatter : cldr.Formatter Arg}
        {locales : utils.Locales Ctx}.

(** X18.  [getLocaleFromContext] returns the locale [T] works with for the
    locale of the request: the locale of the request, or the value [Default]
    holds when the request has none; so it returns the empty locale only when
    [Default] holds it.  A lookup made with the locale it returns has the
    outcome of the lookup made with the locale of the request as it stands:
    [T] itself takes the default locale for the empty one. *)
Theorem T_getLocaleFromContext (context : Ctx) key (args : list Arg)
    (i18n : I18n C B) :
  getLocaleFromContext context = effective_locale (utils.GetLocale context)
  ∧ (Default ≠ "" → getLocaleFromContext context ≠ "")
  ∧ T (getLocaleFromContext context) key args i18n
    = T (utils.GetLocale context) key args i18n.
Proof.
  unfold getLocaleFromContext, effective_locale.
  destruct (String.eqb_spec (utils.GetLocale context) "") as [->|Hne]; simpl.
  - split; [done|]. split; [done|].
    unfold T, T_translation. simpl.
    by destruct (String.eqb Default "").
  - done.
Qed.

End RequestFacts.

Section MoreExamples.

Import fixtures.

Lemma cacheKey_injective_slash_free_witness :
  slash_free "en-US" = true ∧ ("en-" +:+ "US" = "en-US" ∧ "greet" +:+ "ing" = "greeting").
Proof.
  split; [reflexivity|].
  apply cacheKey_injective_slash_free; reflexivity.
Defined.

(** The records [site] has win over the one [vendor] has. *)
Example LoadTranslations_site_vendor :
  entry (result (LoadTranslations (after (New [site; vendor])))) "fr" "greeting"
  = Some (tr "fr" "greeting" "Bonjour")
  ∧ calls (LoadTranslations (after (New [site; vendor])))
    = [BackendLoad 1; BackendLoad 0].
Proof. split; reflexivity. Qed.

Lemma T_hit_is_read_only_witness :
  after (T "fr-CA" "greeting" [] canadian) = canadian
  ∧ calls (T "fr-CA" "greeting" [] canadian)
    = [CacheUnmarshal "fr-CA/greeting"; CacheUnmarshal "fr-BE/greeting";
       CacheUnmarshal "fr/greeting"].
Proof.
  destruct (T_hit_is_read_only (Arg := string) "fr-CA" "greeting" [] canadian)
    as (Hafter & _ & Hcalls & _).
  - do 2 apply Exists_cons_tl. apply Exists_cons_hd. reflexivity.
  - split; [exact Hafter|exact Hcalls].
Defined.

Lemma New_first_declared_wins_witness :
  cacheStore (after (New [site; vendor])) !! "fr/greeting"
  = Some {| doc_Key := "greeting"; doc_Locale := "fr"; doc_Value := "Bonjour" |}.
Proof.
  exact (New_first_declared_wins [site; vendor] "fr" "greeting"
           ltac:(repeat constructor) eq_refl).
Defined.

Lemma LoadTranslations_agrees_with_cache_witness :
  result (T "fr" "greeting" [] (after (New [site; vendor]))) = "Bonjour".
Proof.
  destruct (LoadTranslations_agrees_with_cache (Arg := string)
              [site; vendor] "fr" "greeting" []) as [_ Hlookup].
  - repeat constructor.
  - reflexivity.
  - apply (Hlookup (tr "fr" "greeting" "Bonjour")).
    + reflexivity.
    + discriminate.
    + discriminate.
Defined.

Lemma AddTranslation_then_T_witness :
  T "de" "greeting" [] (after (AddTranslation (tr "de" "greeting" "Hallo") blank))
  = ("Hallo", after (AddTranslation (tr "de" "greeting" "Hallo") blank),
     [CacheUnmarshal "de/greeting"]).
Proof.
  destruct (AddTranslation_then_T (Arg := string) (tr "de" "greeting" "Hallo")
              [] blank) as [_ Hlookup].
  - discriminate.
  - discriminate.
  - exact Hlookup.
Defined.

Lemma SaveTranslation_then_T_witness :
  T "de" "greeting" [] (after (SaveTranslation (tr "de" "greeting" "Hallo") mixed))
  = ("Hallo", after (SaveTranslation (tr "de" "greeting" "Hallo") mixed),
     [CacheUnmarshal "de/greeting"]).
Proof.
  destruct (SaveTranslation_then_T (Arg := string) (tr "de" "greeting" "Hallo")
              [] mixed 1) as [_ Hlookup].
  - reflexivity.
  - discriminate.
  - discriminate.
  - exact Hlookup.
Defined.

Lemma AddTranslation_then_DeleteTranslation_witness :
  cacheStore (after (DeleteTranslation (tr "de" "greeting" "Hallo")
                       (after (AddTranslation (tr "de" "greeting" "Hallo") mixed))))
  = cacheStore mixed.
Proof.
  destruct (AddTranslation_then_DeleteTranslation
              (tr "de" "greeting" "Hallo") mixed) as [Hcache _].
  - reflexivity.
  - exact Hcache.
Defined.

Lemma DeleteTranslation_then_T_witness :
  probes (calls (T "fr" "greeting" []
                   (after (DeleteTranslation (tr "fr" "greeting" "")
                             (after (New [site; vendor]))))))
  = ["fr/greeting"; "en-US/greeting"]
  ∧ result (T "fr" "greeting" []
              (after (DeleteTranslation (tr "fr" "greeting" "")
                        (after (New [site; vendor])))))
    = "Hello".
Proof.
  destruct (DeleteTranslation_then_T (Arg := string) (tr "fr" "greeting" "") []
              (after (New [site; vendor]))) as (_ & _ & Hprobes).
  - discriminate.
  - split; [exact Hprobes|reflexivity].
Defined.

Lemma T_scoped_placeholder_is_never_found_witness :
  cacheStore (after (T "fr" "greeting" [] scoped))
  = {[ "fr/admin.greeting"
       := {| doc_Key := "admin.greeting"; doc_Locale := "fr"; doc_Value := "N/A" |} ]}
  ∧ calls (T "fr" "greeting" [] (after (T "fr" "greeting" [] scoped)))
    = [CacheUnmarshal "fr/greeting"; CacheUnmarshal "en-US/greeting";
       CacheUnmarshal "en-US/greeting";
       BackendSave 0 {| Key := "admin.greeting"; Locale := "fr"; Value := "N/A";
                        Backend := Some 0 |};
       CacheSet "fr/admin.greeting"
         {| Key := "admin.greeting"; Locale := "fr"; Value := "N/A";
            Backend := Some 0 |}].
Proof.
  destruct (T_scoped_placeholder_is_never_found (Arg := string)
              "fr" "greeting" [] scoped) as [_ Hcalls].
  - discriminate.
  - repeat constructor.
  - split; [reflexivity|exact Hcalls].
Defined.

Lemma RenderInlineEditAssets_first_complete_witness :
  RenderInlineEditAssets (files := two_roots) false true
  = ("<libs/><style>a{}</style><script type=" +:+ quote +:+ "text/javascript"
     +:+ quote +:+ ">two()</script>", nil)
  ∧ RenderInlineEditAssets (files := two_roots) false false
    = ("<script type=" +:+ quote +:+ "text/javascript" +:+ quote
       +:+ ">one()</script>", nil).
Proof.
  split.
  - apply (RenderInlineEditAssets_first_complete (files := two_roots)
             false true ["/go1"] "/go2" []).
    + reflexivity.
    + repeat constructor.
    + reflexivity.
  - apply (RenderInlineEditAssets_first_complete (files := two_roots)
             false false [] "/go1" ["/go2"]).
    + reflexivity.
    + constructor.
    + reflexivity.
Defined.

Lemma RenderInlineEditAssets_without_libs_witness :
  (RenderInlineEditAssets (files := two_roots) true false).2 = nil.
Proof.
  apply (RenderInlineEditAssets_without_libs (files := two_roots) true).
  reflexivity.
Defined.

Lemma T_miss_again_witness :
  written (calls (T "fr" "greeting" [] (after (T "fr" "greeting" [] sealed))))
  = [{| Key := "greeting"; Locale := "fr"; Value := ""; Backend := Some 0 |}].
Proof.
  rewrite (T_miss_again (Arg := string) "fr" "greeting" [] sealed).
  - reflexivity.
  - reflexivity.
  - repeat constructor.
Defined.

(** No directory at all, or none with the script: the error. *)
Example RenderInlineEditAssets_nowhere :
  RenderInlineEditAssets (files := disk [] ∅) true true
  = ("", errors_New "templates not found")
  ∧ RenderInlineEditAssets (files := disk ["/go1"] ∅) false false
    = ("", errors_New "templates not found").
Proof. split; reflexivity. Qed.

End MoreExamples.
